(** * Page replacement tables of [main.cpp]: [fifo_table] and [lru_table]

    A shallow embedding of the two page-table classes and of their
    [load_page] member functions, followed by the properties of the
    fault counter, the resident set and the eviction choice.

    Data is kept as the classes keep it:
    - a page is an [int]; it is only stored and compared, so it is a [Z];
    - [_pageQueue] is a [std::deque<int>], a [list Z] with the front first;
    - [_pageMap] is a [std::unordered_map<int, size_t>], a [gmap Z N]
      together with the order in which the container is traversed, which
      the language leaves open and which every call may find changed;
    - [_capacity] and the recency counters are [size_t], an [N] whose
      arithmetic is taken modulo [2^64];
    - [_page_fault_count] is an [int], a [Z] whose increment wraps from
      [INT_MAX] to [INT_MIN] as the compiled two's-complement addition does
      (ISO C++ leaves that one increment undefined). *)

From Stdlib Require Import ZArith NArith Lia.
From stdpp Require Import base numbers list fin_maps gmap.

Local Open Scope Z_scope.

(** ** Machine integers *)

Definition INT_MAX : Z := 2147483647.
Definition INT_MIN : Z := -2147483648.

(** Reduction of an integer into the range of a 32-bit [int]. *)
Definition wrap_int (x : Z) : Z := (x + 2147483648) mod 4294967296 - 2147483648.

(** [c++] on an [int]. *)
Definition int_incr (c : Z) : Z := wrap_int (c + 1).

Definition SIZE_MODULUS : N := 18446744073709551616%N.

(** [c += 1] on a [size_t]. *)
Definition size_incr (c : N) : N := ((c + 1) mod SIZE_MODULUS)%N.

(** The value [load_page] reports when no page was replaced. *)
Definition NO_PAGE : Z := -1.

(** ** [class fifo_table] *)

Module fifo_table.

Record t : Type := mk {
  _pageQueue : list Z;
  _capacity : N;
  _page_fault_count : Z
}.

(** [fifo_table(size_t capacity)]: an empty queue, no fault so far. *)
Definition new (capacity : N) : t :=
  {| _pageQueue := []; _capacity := capacity; _page_fault_count := 0 |}.

(** [int capacity()]: the [size_t] member converted to [int]. *)
Definition capacity (s : t) : Z := wrap_int (Z.of_N (_capacity s)).

(** [get_page_list()]: a copy of the queue, front first. *)
Definition get_page_list (s : t) : list Z := _pageQueue s.

Definition get_page_fault_count (s : t) : Z := _page_fault_count s.

(** [std::find(begin, end, page)] as the position of the iterator it
    returns; the position [length q] is [end()]. *)
Fixpoint find (q : list Z) (page : Z) : nat :=
  match q with
  | [] => 0%nat
  | x :: q' => if (x =? page)%Z then 0%nat else S (find q' page)
  end.

(** [front()] and [pop_front()] of a deque; [load_page] calls them right
    after a [push_back], on a queue that is not empty. *)
Definition front (q : list Z) : Z := hd NO_PAGE q.
Definition pop_front (q : list Z) : list Z := tl q.

(** [load_page(page)]: the pair it returns and the table it leaves. *)
Definition load_page (s : t) (page : Z) : (bool * Z) * t :=
  let result := (false, NO_PAGE) in
  if (find (_pageQueue s) page =? length (_pageQueue s))%nat then
    let count := int_incr (_page_fault_count s) in
    let q := _pageQueue s ++ [page] in
    if (_capacity s <? N.of_nat (length q))%N then
      ((true, front q),
       {| _pageQueue := pop_front q; _capacity := _capacity s;
          _page_fault_count := count |})
    else
      ((true, result.2),
       {| _pageQueue := q; _capacity := _capacity s;
          _page_fault_count := count |})
  else (result, s).

(** The table after a sequence of [load_page] calls on a fresh one. *)
Definition run (capacity : N) (pages : list Z) : t :=
  foldl (λ s page, (load_page s page).2) (new capacity) pages.

(** [std::find(first, last, page)] step by step. An iterator is a
    position in the queue, [last] is its length, and a position with no
    entry is [last]. [fuel] bounds the number of times the loop test
    [first != last] is evaluated; [None] stands for a loop that is still
    running when the fuel is spent. *)
Fixpoint find_loop (fuel : nat) (q : list Z) (first : nat) (page : Z) : option nat :=
  match fuel with
  | O => None
  | S fuel' =>
      match q !! first with
      | None => Some first
      | Some x =>
          if (x =? page)%Z then Some first else find_loop fuel' q (S first) page
      end
  end.

(** [load_page(page)] with the loop of [std::find] run on [fuel]; the
    member functions of the deque are single steps. *)
Definition load_page_loops (fuel : nat) (s : t) (page : Z) : option ((bool * Z) * t) :=
  let result := (false, NO_PAGE) in
  match find_loop fuel (_pageQueue s) 0 page with
  | None => None
  | Some position =>
      if (position =? length (_pageQueue s))%nat then
        let count := int_incr (_page_fault_count s) in
        let q := _pageQueue s ++ [page] in
        if (_capacity s <? N.of_nat (length q))%N then
          Some ((true, front q),
                {| _pageQueue := pop_front q; _capacity := _capacity s;
                   _page_fault_count := count |})
        else
          Some ((true, result.2),
                {| _pageQueue := q; _capacity := _capacity s;
                   _page_fault_count := count |})
      else Some (result, s)
  end.

(** The loop of [run_trial]: [load_page] on each page of the reference
    sequence in turn. [drive] keeps, for every call, the page and the pair
    the call returned, from which the columns "New Page" and "Page
    Replaced" are printed, and ends with the table the loop leaves. *)
Definition drive (capacity : N) (pages : list Z) : list (Z * (bool * Z)) * t :=
  foldl (λ acc page,
           let result := load_page acc.2 page in
           (acc.1 ++ [(page, result.1)], result.2))
        ([], new capacity) pages.

Definition trace (capacity : N) (pages : list Z) : list (Z * (bool * Z)) :=
  (drive capacity pages).1.

(** The pages whose call reported a fault, in the order of the calls. *)
Definition arrivals (capacity : N) (pages : list Z) : list Z :=
  (filter (λ row, row.2.1 = true) (trace capacity pages)).*1.

End fifo_table.

(** ** [class lru_table] *)

Module lru_table.

Record t : Type := mk {
  _pageMap : gmap Z N;
  _capacity : N;
  _page_fault_count : Z
}.

Definition new (capacity : N) : t :=
  {| _pageMap := ∅; _capacity := capacity; _page_fault_count := 0 |}.

Definition capacity (s : t) : Z := wrap_int (Z.of_N (_capacity s)).

Definition get_page_fault_count (s : t) : Z := _page_fault_count s.

(** The lambda [compareFunction]: order by the second component. *)
Definition compareFunction (max kvp : Z * N) : bool := (max.2 <? kvp.2)%N.

(** [std::max_element(first, last, comp)]: the running maximum starts at
    the first element and moves only to a strictly greater one, so of
    several greatest elements the first one visited is returned. On an
    empty range it returns [last]. *)
Fixpoint max_element_from (largest : Z * N) (rest : list (Z * N)) : Z * N :=
  match rest with
  | [] => largest
  | kvp :: rest' =>
      max_element_from (if compareFunction largest kvp then kvp else largest) rest'
  end.

Definition max_element (range : list (Z * N)) : option (Z * N) :=
  match range with
  | [] => None
  | first :: rest => Some (max_element_from first rest)
  end.

(** The effect of lines 93 to 103 on the map: the page is entered with
    counter 0 (a new entry on a fault, an overwrite on a hit), then every
    counter in the table, the one of [page] included, is incremented. *)
Definition touch (m : gmap Z N) (page : Z) : gmap Z N :=
  let m1 := match m !! page with
            | None => <[page := 0%N]> m
            | Some _ => m
            end in
  let m2 := <[page := 0%N]> m1 in
  size_incr <$> m2.

(** The counter a call leaves in [_page_fault_count]. *)
Definition count_after (s : t) (page : Z) : Z :=
  if bool_decide (_pageMap s !! page = None) then int_incr (_page_fault_count s)
  else _page_fault_count s.

(** Vocabulary for the recency counters of a map. *)

(** Every counter lies between 1 and [n]. *)
Definition counters_within (n : N) (m : gmap Z N) : Prop :=
  ∀ q c, m !! q = Some c → (1 ≤ c ≤ n)%N.

(** No two resident pages hold the same counter. *)
Definition counters_distinct (m : gmap Z N) : Prop :=
  ∀ q1 q2 c, m !! q1 = Some c → m !! q2 = Some c → q1 = q2.

(** Exactly one resident page holds counter [c]. *)
Definition exactly_one_with (c : N) (m : gmap Z N) : Prop :=
  ∃ p, m !! p = Some c ∧ ∀ q, m !! q = Some c → q = p.

(** The counters are one run of consecutive values, each held once. *)
Definition consecutive_run (m : gmap Z N) : Prop :=
  ∃ lo, ∀ c, (∃ p, m !! p = Some c) ↔ (lo ≤ c < lo + N.of_nat (size m))%N.

(** [counter] is the greatest counter of the map. *)
Definition greatest_counter (m : gmap Z N) (counter : N) : Prop :=
  ∀ q c, m !! q = Some c → (c ≤ counter)%N.

(** What is known of a traversal order: it visits every entry once. *)
Definition traversal (iteration : gmap Z N → list (Z * N)) : Prop :=
  ∀ m, iteration m ≡ₚ map_to_list m.

Section iteration_order.

(** The order in which an [unordered_map] is traversed is not fixed by
    the language; [iteration] stands for it. The properties below assume
    no more of it than [traversal]. *)
Variable iteration : gmap Z N → list (Z * N).

(** [get_page_list()]: the keys, in traversal order. *)
Definition get_page_list (s : t) : list Z := (iteration (_pageMap s)).*1.

(** [load_page(page)]: the pair it returns and the table it leaves. The
    range given to [max_element] holds at least the entry of [page], so the
    branch for an empty range is never taken under a [traversal]. *)
Definition load_page (s : t) (page : Z) : (bool * Z) * t :=
  let result := (false, NO_PAGE) in
  let faulted := bool_decide (_pageMap s !! page = None) in
  let count := if faulted then int_incr (_page_fault_count s)
               else _page_fault_count s in
  let m := touch (_pageMap s) page in
  if (_capacity s <? N.of_nat (size m))%N then
    match max_element (iteration m) with
    | Some maxElement =>
        ((faulted, maxElement.1),
         {| _pageMap := delete maxElement.1 m; _capacity := _capacity s;
            _page_fault_count := count |})
    | None =>
        ((faulted, result.2),
         {| _pageMap := m; _capacity := _capacity s;
            _page_fault_count := count |})
    end
  else
    ((faulted, result.2),
     {| _pageMap := m; _capacity := _capacity s; _page_fault_count := count |}).

(** The table after a sequence of [load_page] calls on a fresh one, when
    each traversal follows the one order [iteration]. *)
Definition run (capacity : N) (pages : list Z) : t :=
  foldl (λ s page, (load_page s page).2) (new capacity) pages.

End iteration_order.

(** The tables that the calls [load_page(p)], for [p] through [pages] in
    turn, can leave of a fresh table of the given capacity. The hash table
    may be laid out anew by any insertion, so each call comes with a
    traversal order of its own. *)
Inductive reachable (capacity : N) : list Z → t → Prop :=
  | reachable_new : reachable capacity [] (new capacity)
  | reachable_load pages s iteration page :
      reachable capacity pages s →
      traversal iteration →
      reachable capacity (pages ++ [page]) (load_page iteration s page).2.

(** The map the calls would leave if no entry were ever erased: every
    page referenced so far with its counter. *)
Definition ages (pages : list Z) : gmap Z N := foldl touch ∅ pages.

(** The latest reference to [q] in [pages] is the [c]-th from the end. *)
Definition last_referenced (pages : list Z) (q : Z) (c : N) : Prop :=
  ∃ l1 l2, pages = l1 ++ q :: l2 ∧ (q ∉ l2) ∧ c = N.of_nat (S (length l2)).

(** [m] is made of entries of [all], and with an entry it has every entry
    of [all] with a smaller counter. *)
Definition youngest_of (all m : gmap Z N) : Prop :=
  m ⊆ all
  ∧ ∀ q c q' c', m !! q = Some c → all !! q' = Some c' → (c' < c)%N →
                 m !! q' = Some c'.

(** The loop [for (auto& keyValuePair : _pageMap) keyValuePair.second += 1]
    step by step: [keys] are the keys in traversal order, an iterator is a
    position in them, and each step increments the counter found under the
    key it visits. [fuel] bounds the number of loop tests, as in
    [fifo_table.find_loop]. *)
Fixpoint age_loop (fuel : nat) (keys : list Z) (position : nat) (m : gmap Z N)
    : option (gmap Z N) :=
  match fuel with
  | O => None
  | S fuel' =>
      match keys !! position with
      | None => Some m
      | Some key => age_loop fuel' keys (S position) (alter size_incr key m)
      end
  end.

(** The loop of [std::max_element] step by step: [largest] and [first] are
    positions in the range, and [largest] moves to [first] when [comp]
    holds of the entries under the two. [largest] never leaves the
    range; were it to, the loop would have no entry to compare and the
    model gives no result. *)
Fixpoint max_element_loop (fuel : nat) (range : list (Z * N)) (largest first : nat)
    : option nat :=
  match fuel with
  | O => None
  | S fuel' =>
      match range !! first with
      | None => Some largest
      | Some kvp =>
          match range !! largest with
          | None => None
          | Some max =>
              max_element_loop fuel' range
                (if compareFunction max kvp then first else largest) (S first)
          end
      end
  end.

(** [std::max_element] on [fuel]: on an empty range it returns [last]
    at once, otherwise the loop starts with [largest] at the first entry
    and [first] at the second. The inner option is the entry under the
    iterator returned, none for [last]. *)
Definition max_element_steps (fuel : nat) (range : list (Z * N))
    : option (option (Z * N)) :=
  match range with
  | [] => Some None
  | _ :: _ =>
      match max_element_loop fuel range 0 1 with
      | None => None
      | Some position => Some (range !! position)
      end
  end.

Section trial.

Variable iteration : gmap Z N → list (Z * N).

(** [load_page(page)] with its two loops over the map run on [fuel]; the
    member functions of the map ([find], [insert], [operator[]], [size],
    [erase]) are single steps. *)
Definition load_page_loops (fuel : nat) (s : t) (page : Z) : option ((bool * Z) * t) :=
  let result := (false, NO_PAGE) in
  let faulted := bool_decide (_pageMap s !! page = None) in
  let count := if faulted then int_incr (_page_fault_count s)
               else _page_fault_count s in
  let m1 := if faulted then <[page := 0%N]> (_pageMap s) else _pageMap s in
  let m2 := <[page := 0%N]> m1 in
  match age_loop fuel (iteration m2).*1 0 m2 with
  | None => None
  | Some m =>
      if (_capacity s <? N.of_nat (size m))%N then
        match max_element_steps fuel (iteration m) with
        | None => None
        | Some (Some maxElement) =>
            Some ((faulted, maxElement.1),
                  {| _pageMap := delete maxElement.1 m; _capacity := _capacity s;
                     _page_fault_count := count |})
        | Some None =>
            Some ((faulted, result.2),
                  {| _pageMap := m; _capacity := _capacity s;
                     _page_fault_count := count |})
        end
      else
        Some ((faulted, result.2),
              {| _pageMap := m; _capacity := _capacity s;
                 _page_fault_count := count |})
  end.

(** The loop of [run_trial] on an [lru_table], as [fifo_table.drive]. *)
Definition drive (capacity : N) (pages : list Z) : list (Z * (bool * Z)) * t :=
  foldl (λ acc page,
           let result := load_page iteration acc.2 page in
           (acc.1 ++ [(page, result.1)], result.2))
        ([], new capacity) pages.

Definition trace (capacity : N) (pages : list Z) : list (Z * (bool * Z)) :=
  (drive capacity pages).1.

End trial.

End lru_table.

(** ** [main] *)

Module main.

(** The reference sequence that [main] feeds to every table. *)
Definition pageTestSet : list Z :=
  [1; 1; 1; 1; 0; 3; 1; 1; 3; 5; 1; 8; 1; 3; 5; 13;
   15; 6; 1; 1; 3; 6; 7; 8; 9; 3; 1; 1; 4; 4; 4; 1; 2].

End main.

(** The number of different pages in a reference sequence. *)
Definition distinct (pages : list Z) : nat := size (list_to_set pages : gset Z).

(** The number of rows of a trace whose call reported a fault. *)
Definition faulting (rows : list (Z * (bool * Z))) : nat :=
  length (filter (λ row, row.2.1 = true) rows).

(** * Properties *)

(** ** Machine integers *)

Lemma int_incr_below (c : Z) : INT_MIN ≤ c < INT_MAX → int_incr c = c + 1.
Proof.
  unfold int_incr, wrap_int, INT_MIN, INT_MAX. intros H.
  rewrite Z.mod_small by lia. lia.
Qed.

Lemma int_incr_INT_MAX : int_incr INT_MAX = INT_MIN.
Proof. reflexivity. Qed.

Lemma size_incr_below (c : N) : (c + 1 < SIZE_MODULUS)%N → size_incr c = (c + 1)%N.
Proof. unfold size_incr. intros H. by apply N.mod_small. Qed.

(** ** [fifo_table] *)

Section fifo_facts.
Import fifo_table.

Lemma find_le (q : list Z) (page : Z) : (find q page ≤ length q)%nat.
Proof.
  induction q as [|x q IH]; simpl; [lia|].
  destruct (x =? page); simpl; lia.
Qed.

(** [std::find] returns [end()] exactly when the page is not in the queue. *)
Lemma find_end (q : list Z) (page : Z) :
  find q page = length q ↔ page ∉ q.
Proof.
  induction q as [|x q IH]; simpl.
  - split; [intros _; apply not_elem_of_nil | done].
  - rewrite not_elem_of_cons. destruct (Z.eqb_spec x page) as [->|Hne].
    + split; [discriminate | intros [? _]; done].
    + split.
      * intros [= H]. split; [congruence | by apply IH].
      * intros [_ H]. f_equal. by apply IH.
Qed.

Lemma fifo_load_page_hit (s : t) (page : Z) :
  page ∈ _pageQueue s → load_page s page = ((false, NO_PAGE), s).
Proof.
  intros Hin. unfold load_page.
  destruct (Nat.eqb_spec (find (_pageQueue s) page) (length (_pageQueue s))) as [He|]; [|done].
  by apply find_end in He.
Qed.

Lemma fifo_load_page_miss (s : t) (page : Z) :
  page ∉ _pageQueue s →
  load_page s page =
    let q := _pageQueue s ++ [page] in
    if (_capacity s <? N.of_nat (length q))%N
    then ((true, front q), mk (pop_front q) (_capacity s) (int_incr (_page_fault_count s)))
    else ((true, NO_PAGE), mk q (_capacity s) (int_incr (_page_fault_count s))).
Proof.
  intros Hin. unfold load_page.
  apply find_end in Hin. rewrite Hin, Nat.eqb_refl. done.
Qed.

Lemma fifo_load_page_capacity (s : t) (page : Z) :
  _capacity (load_page s page).2 = _capacity s.
Proof.
  unfold load_page. repeat case_match; done.
Qed.

Lemma fifo_run_snoc (capacity : N) (pages : list Z) (page : Z) :
  run capacity (pages ++ [page]) = (load_page (run capacity pages) page).2.
Proof. unfold run. by rewrite foldl_snoc. Qed.

Lemma fifo_run_capacity (capacity : N) (pages : list Z) :
  _capacity (run capacity pages) = capacity.
Proof.
  induction pages as [|page pages IH] using rev_ind; [done|].
  by rewrite fifo_run_snoc, fifo_load_page_capacity.
Qed.

(** One call keeps the queue within the capacity. *)
Lemma fifo_load_page_bounded (s : t) (page : Z) :
  (N.of_nat (length (_pageQueue s)) ≤ _capacity s)%N →
  (N.of_nat (length (_pageQueue (load_page s page).2)) ≤ _capacity s)%N.
Proof.
  intros Hle. unfold load_page.
  destruct (_ =? _)%nat; [|done].
  destruct (N.ltb_spec (_capacity s) (N.of_nat (length (_pageQueue s ++ [page])))) as [Hlt|Hge];
    simpl; [|done].
  unfold pop_front. destruct (_pageQueue s) as [|x q]; simpl in *; [lia|].
  rewrite length_app. simpl. lia.
Qed.

Lemma fifo_run_bounded (capacity : N) (pages : list Z) :
  (N.of_nat (length (_pageQueue (run capacity pages))) ≤ capacity)%N.
Proof.
  induction pages as [|page pages IH] using rev_ind; [simpl; lia|].
  rewrite fifo_run_snoc. rewrite <- (fifo_run_capacity capacity pages) at 2.
  apply fifo_load_page_bounded. by rewrite fifo_run_capacity.
Qed.

(** With capacity 0 the queue is empty after every call. *)
Lemma fifo_run_zero_capacity (pages : list Z) : _pageQueue (run 0 pages) = [].
Proof.
  pose proof (fifo_run_bounded 0 pages) as H.
  destruct (_pageQueue (run 0 pages)); [done | simpl in H; lia].
Qed.

End fifo_facts.

(** ** [lru_table] *)

Section lru_facts.
Import lru_table.

(** *** The map after the touch-and-age pass *)

Lemma touch_eq (m : gmap Z N) (page : Z) :
  touch m page = size_incr <$> <[page := 0%N]> m.
Proof.
  unfold touch. destruct (m !! page); [done|]. by rewrite insert_insert_eq.
Qed.

Lemma lookup_touch (m : gmap Z N) (page q : Z) :
  touch m page !! q = if decide (q = page) then Some 1%N else size_incr <$> m !! q.
Proof.
  rewrite touch_eq, lookup_fmap. destruct (decide (q = page)) as [->|Hne].
  - by rewrite lookup_insert_eq.
  - by rewrite lookup_insert_ne.
Qed.

Lemma lookup_touch_eq (m : gmap Z N) (page : Z) : touch m page !! page = Some 1%N.
Proof. rewrite lookup_touch. by rewrite decide_True. Qed.

Lemma lookup_touch_ne (m : gmap Z N) (page q : Z) :
  q ≠ page → touch m page !! q = size_incr <$> m !! q.
Proof. intros Hne. rewrite lookup_touch. by rewrite decide_False. Qed.

Lemma size_touch (m : gmap Z N) (page : Z) :
  size (touch m page) = match m !! page with
                        | None => S (size m)
                        | Some _ => size m
                        end.
Proof.
  rewrite touch_eq, map_size_fmap. destruct (m !! page) as [c|] eqn:Hm.
  - by apply map_size_insert_Some.
  - by apply map_size_insert_None.
Qed.

Lemma touch_non_empty (m : gmap Z N) (page : Z) : touch m page ≠ ∅.
Proof.
  intros He. pose proof (lookup_touch_eq m page) as H.
  rewrite He, lookup_empty in H. done.
Qed.

(** *** [std::max_element] *)

Lemma max_element_from_elem (largest : Z * N) (rest : list (Z * N)) :
  max_element_from largest rest ∈ largest :: rest.
Proof.
  revert largest. induction rest as [|kvp rest IH]; intros largest; simpl.
  - apply list_elem_of_here.
  - specialize (IH (if compareFunction largest kvp then kvp else largest)).
    apply elem_of_cons in IH as [IH|IH].
    + rewrite IH. destruct (compareFunction largest kvp).
      * apply list_elem_of_further, list_elem_of_here.
      * apply list_elem_of_here.
    + by do 2 apply list_elem_of_further.
Qed.

Lemma max_element_from_mono (largest : Z * N) (rest : list (Z * N)) :
  (largest.2 ≤ (max_element_from largest rest).2)%N.
Proof.
  revert largest. induction rest as [|kvp rest IH]; intros largest; simpl; [lia|].
  specialize (IH (if compareFunction largest kvp then kvp else largest)).
  unfold compareFunction in *.
  destruct (N.ltb_spec largest.2 kvp.2); lia.
Qed.

Lemma max_element_from_upper (largest : Z * N) (rest : list (Z * N)) (kvp : Z * N) :
  kvp ∈ largest :: rest → (kvp.2 ≤ (max_element_from largest rest).2)%N.
Proof.
  revert largest. induction rest as [|x rest IH]; intros largest Hin; simpl.
  - apply list_elem_of_singleton in Hin as ->. lia.
  - apply elem_of_cons in Hin as [->|Hin].
    + pose proof (max_element_from_mono
        (if compareFunction largest x then x else largest) rest) as H.
      unfold compareFunction in *. destruct (N.ltb_spec largest.2 x.2); lia.
    + apply elem_of_cons in Hin as [->|Hin].
      * pose proof (max_element_from_mono
          (if compareFunction largest x then x else largest) rest) as H.
        unfold compareFunction in *. destruct (N.ltb_spec largest.2 x.2); lia.
      * apply IH. by apply list_elem_of_further.
Qed.

(** On a range that is not empty [max_element] returns one of its
    elements, and no element of the range has a greater counter. *)
Lemma max_element_spec (range : list (Z * N)) :
  range ≠ [] →
  ∃ maxElement, max_element range = Some maxElement
    ∧ maxElement ∈ range
    ∧ ∀ kvp, kvp ∈ range → (kvp.2 ≤ maxElement.2)%N.
Proof.
  destruct range as [|first rest]; [done|]. intros _.
  exists (max_element_from first rest). split; [done|]. split.
  - apply max_element_from_elem.
  - intros kvp. apply max_element_from_upper.
Qed.

(** *** One call, for any traversal order *)

Context (iteration : gmap Z N → list (Z * N)).
Context (iteration_perm : traversal iteration).

Lemma elem_of_iteration (m : gmap Z N) (kvp : Z * N) :
  kvp ∈ iteration m ↔ m !! kvp.1 = Some kvp.2.
Proof. rewrite (iteration_perm m). apply elem_of_map_to_list'. Qed.

Lemma length_iteration (m : gmap Z N) : length (iteration m) = size m.
Proof. rewrite (iteration_perm m). apply length_map_to_list. Qed.

Lemma iteration_non_empty (m : gmap Z N) : m ≠ ∅ → iteration m ≠ [].
Proof.
  intros Hm He. apply Hm, map_size_empty_inv.
  by rewrite <- length_iteration, He.
Qed.

Lemma length_get_page_list (s : t) :
  length (get_page_list iteration s) = size (_pageMap s).
Proof. unfold get_page_list. by rewrite length_fmap, length_iteration. Qed.

(** Within the capacity nothing is erased. *)
Lemma lru_load_page_keeps (s : t) (page : Z) :
  (N.of_nat (size (touch (_pageMap s) page)) ≤ _capacity s)%N →
  load_page iteration s page =
    ((bool_decide (_pageMap s !! page = None), NO_PAGE),
     mk (touch (_pageMap s) page) (_capacity s) (count_after s page)).
Proof.
  intros Hle. unfold load_page.
  destruct (N.ltb_spec (_capacity s) (N.of_nat (size (touch (_pageMap s) page)))); [lia|done].
Qed.

(** Over the capacity the erased entry is a resident page whose counter
    no other resident page exceeds. *)
Lemma lru_load_page_evicts (s : t) (page : Z) :
  (_capacity s < N.of_nat (size (touch (_pageMap s) page)))%N →
  ∃ evicted counter,
    touch (_pageMap s) page !! evicted = Some counter
    ∧ greatest_counter (touch (_pageMap s) page) counter
    ∧ load_page iteration s page =
        ((bool_decide (_pageMap s !! page = None), evicted),
         mk (delete evicted (touch (_pageMap s) page)) (_capacity s)
            (count_after s page)).
Proof.
  intros Hlt. unfold load_page.
  destruct (N.ltb_spec (_capacity s) (N.of_nat (size (touch (_pageMap s) page)))); [|lia].
  destruct (max_element_spec (iteration (touch (_pageMap s) page)))
    as ([evicted counter] & -> & Hin & Hmax).
  { apply iteration_non_empty, touch_non_empty. }
  exists evicted, counter. split; [by apply elem_of_iteration in Hin|].
  split; [|done].
  intros q c Hq. apply (Hmax (q, c)). by apply elem_of_iteration.
Qed.

Lemma lru_load_page_capacity (s : t) (page : Z) :
  _capacity (load_page iteration s page).2 = _capacity s.
Proof. unfold load_page. repeat case_match; done. Qed.

Lemma lru_load_page_count (s : t) (page : Z) :
  _page_fault_count (load_page iteration s page).2 = count_after s page.
Proof. unfold load_page, count_after. repeat case_match; done. Qed.

(** One call keeps the map within the capacity. *)
Lemma lru_load_page_bounded (s : t) (page : Z) :
  (N.of_nat (size (_pageMap s)) ≤ _capacity s)%N →
  (N.of_nat (size (_pageMap (load_page iteration s page).2)) ≤ _capacity s)%N.
Proof.
  intros Hle.
  destruct (N.le_gt_cases (N.of_nat (size (touch (_pageMap s) page))) (_capacity s))
    as [Hk|He].
  - by rewrite lru_load_page_keeps.
  - destruct (lru_load_page_evicts s page He) as (evicted & counter & Hin & _ & ->).
    simpl. pose proof (map_size_delete_Some evicted _ (mk_is_Some _ _ Hin)) as Hd.
    pose proof (size_touch (_pageMap s) page) as Ht.
    destruct (_pageMap s !! page); lia.
Qed.

(** The run under one traversal order is one of the reachable tables. *)
Lemma lru_run_reachable (capacity : N) (pages : list Z) :
  reachable capacity pages (run iteration capacity pages).
Proof.
  induction pages as [|page pages IH] using rev_ind; [constructor|].
  unfold run. rewrite foldl_snoc. by constructor.
Qed.

End lru_facts.

(** *** Reachable tables *)

Lemma lru_reachable_capacity (capacity : N) (pages : list Z) (s : lru_table.t) :
  lru_table.reachable capacity pages s → lru_table._capacity s = capacity.
Proof.
  induction 1 as [|pages s iteration page _ IH _]; [done|].
  by rewrite lru_load_page_capacity.
Qed.

Lemma lru_reachable_bounded (capacity : N) (pages : list Z) (s : lru_table.t) :
  lru_table.reachable capacity pages s →
  (N.of_nat (size (lru_table._pageMap s)) ≤ capacity)%N.
Proof.
  induction 1 as [|pages s iteration page Hs IH Horder].
  - simpl. rewrite map_size_empty. lia.
  - rewrite <- (lru_reachable_capacity capacity pages s Hs) in *.
    by apply lru_load_page_bounded.
Qed.

Lemma lru_reachable_zero_capacity (pages : list Z) (s : lru_table.t) :
  lru_table.reachable 0 pages s → lru_table._pageMap s = ∅.
Proof.
  intros Hs. apply map_size_empty_inv.
  pose proof (lru_reachable_bounded 0 pages s Hs). lia.
Qed.

(** ** Recency counters of [lru_table] *)

Section lru_counters.
Import lru_table.

Lemma counters_within_subseteq (n : N) (m m' : gmap Z N) :
  m' ⊆ m → counters_within n m → counters_within n m'.
Proof. intros Hsub Hm q c Hq. apply (Hm q). by eapply lookup_weaken. Qed.

Lemma counters_distinct_subseteq (m m' : gmap Z N) :
  m' ⊆ m → counters_distinct m → counters_distinct m'.
Proof.
  intros Hsub Hm q1 q2 c H1 H2.
  apply (Hm q1 q2 c); by eapply lookup_weaken.
Qed.

(** As long as the counters stay below [2^64] the aging pass adds one to
    the counter of every page other than the touched one. *)
Lemma lookup_touch_other (n : N) (m : gmap Z N) (page q : Z) (c : N) :
  counters_within n m → (n + 1 < SIZE_MODULUS)%N →
  q ≠ page → touch m page !! q = Some c →
  ∃ c0, m !! q = Some c0 ∧ c = (c0 + 1)%N ∧ (1 ≤ c0 ≤ n)%N.
Proof.
  intros Hm Hn Hne. rewrite lookup_touch_ne by done.
  destruct (m !! q) as [c0|] eqn:Hq; [|done]. intros [= <-].
  pose proof (Hm q c0 Hq). exists c0. split; [done|]. split; [|done].
  apply size_incr_below. lia.
Qed.

Lemma touch_within (n : N) (m : gmap Z N) (page : Z) :
  counters_within n m → (n + 1 < SIZE_MODULUS)%N →
  counters_within (n + 1) (touch m page).
Proof.
  intros Hm Hn q c Hq. destruct (decide (q = page)) as [->|Hne].
  - rewrite lookup_touch_eq in Hq. injection Hq as <-. lia.
  - destruct (lookup_touch_other n m page q c Hm Hn Hne Hq) as (c0 & _ & -> & ?). lia.
Qed.

Lemma touch_distinct (n : N) (m : gmap Z N) (page : Z) :
  counters_within n m → (n + 1 < SIZE_MODULUS)%N →
  counters_distinct m → counters_distinct (touch m page).
Proof.
  intros Hm Hn Hd q1 q2 c H1 H2.
  destruct (decide (q1 = page)) as [->|Hne1], (decide (q2 = page)) as [->|Hne2]; [done|..].
  - rewrite lookup_touch_eq in H1. injection H1 as <-.
    destruct (lookup_touch_other n m page q2 1%N Hm Hn Hne2 H2) as (c0 & _ & ? & ?). lia.
  - rewrite lookup_touch_eq in H2. injection H2 as <-.
    destruct (lookup_touch_other n m page q1 1%N Hm Hn Hne1 H1) as (c0 & _ & ? & ?). lia.
  - destruct (lookup_touch_other n m page q1 c Hm Hn Hne1 H1) as (c1 & Hq1 & -> & _).
    destruct (lookup_touch_other n m page q2 _ Hm Hn Hne2 H2) as (c2 & Hq2 & He & _).
    apply (Hd q1 q2 c1); [done|]. rewrite Hq2. f_equal. lia.
Qed.

(** Two pages that both hold the greatest counter are the same page when
    the counters are distinct. *)
Lemma greatest_counter_unique (m : gmap Z N) (q1 q2 : Z) (c1 c2 : N) :
  counters_distinct m →
  m !! q1 = Some c1 → greatest_counter m c1 →
  m !! q2 = Some c2 → greatest_counter m c2 →
  q1 = q2.
Proof.
  intros Hd H1 G1 H2 G2. pose proof (G1 q2 c2 H2). pose proof (G2 q1 c1 H1).
  apply (Hd q1 q2 c1); [done|]. rewrite H2. f_equal. lia.
Qed.

(** Whatever the traversal order, the map a call leaves is part of the
    touched-and-aged map. *)
Lemma lru_load_page_subseteq iteration (s : t) (page : Z) :
  _pageMap (load_page iteration s page).2 ⊆ touch (_pageMap s) page.
Proof.
  unfold load_page.
  destruct (_ <? _)%N; [|done].
  destruct (max_element _); [|done].
  apply delete_subseteq.
Qed.

(** Short of [2^64] calls no counter has wrapped: each lies between 1 and
    the number of calls, and no two are equal. *)
Lemma lru_reachable_counters (capacity : N) (pages : list Z) (s : t) :
  reachable capacity pages s →
  (N.of_nat (length pages) < SIZE_MODULUS)%N →
  counters_within (N.of_nat (length pages)) (_pageMap s)
  ∧ counters_distinct (_pageMap s).
Proof.
  induction 1 as [|pages s iteration page Hs IH Horder]; intros Hlen.
  - split; intros ?; intros; simplify_map_eq.
  - rewrite length_app in *. simpl in *.
    destruct IH as [Hw Hd]; [lia|].
    replace (N.of_nat (length pages + 1)) with (N.of_nat (length pages) + 1)%N by lia.
    split.
    + eapply counters_within_subseteq; [apply lru_load_page_subseteq|].
      apply touch_within; [done | lia].
    + eapply counters_distinct_subseteq; [apply lru_load_page_subseteq|].
      eapply touch_distinct; [done | lia | done].
Qed.

(** With distinct counters the result of a call is the same under any two
    traversal orders. *)
Lemma lru_load_page_order_irrelevant
    (iteration1 iteration2 : gmap Z N → list (Z * N)) (s : t) (page : Z) :
  traversal iteration1 → traversal iteration2 →
  counters_distinct (touch (_pageMap s) page) →
  load_page iteration1 s page = load_page iteration2 s page.
Proof.
  intros Hp1 Hp2 Hd.
  destruct (N.le_gt_cases (N.of_nat (size (touch (_pageMap s) page))) (_capacity s))
    as [Hk|He].
  - by rewrite !lru_load_page_keeps.
  - destruct (lru_load_page_evicts iteration1 Hp1 s page He) as (e1 & c1 & H1 & G1 & ->).
    destruct (lru_load_page_evicts iteration2 Hp2 s page He) as (e2 & c2 & H2 & G2 & ->).
    by rewrite (greatest_counter_unique _ e1 e2 c1 c2 Hd H1 G1 H2 G2).
Qed.

(** Short of [2^64] calls a sequence of calls leads to one table only,
    whatever the traversal orders on the way. *)
Lemma lru_reachable_deterministic (capacity : N) (pages : list Z) (s1 s2 : t) :
  reachable capacity pages s1 → reachable capacity pages s2 →
  (N.of_nat (length pages) < SIZE_MODULUS)%N →
  s1 = s2.
Proof.
  intros H1. revert s2.
  induction H1 as [|pages s1 iteration1 page Hs1 IH Horder1]; intros s2 H2 Hlen.
  - inversion H2 as [|pages' s' iteration' page' _ _ Heq]; [done|].
    by destruct pages'.
  - inversion H2 as [Heq|pages' s2' iteration2 page' Hs2 Horder2 Heq]; subst.
    { by destruct pages. }
    apply app_inj_tail in Heq as [-> ->].
    rewrite length_app in Hlen. simpl in Hlen.
    rewrite <- (IH s2' Hs2) by lia.
    f_equal. apply lru_load_page_order_irrelevant; [done..|].
    destruct (lru_reachable_counters capacity pages s1 Hs1) as [Hw Hd]; [lia|].
    eapply touch_distinct; [done | lia | done].
Qed.

(** The next call on two tables reached by the same calls gives one
    result and one table. *)
Lemma lru_next_call_order_irrelevant
    (iteration1 iteration2 : gmap Z N → list (Z * N))
    (capacity : N) (pages : list Z) (s1 s2 : t) (page : Z) :
  traversal iteration1 → traversal iteration2 →
  reachable capacity pages s1 → reachable capacity pages s2 →
  (N.of_nat (length pages) + 1 < SIZE_MODULUS)%N →
  load_page iteration1 s1 page = load_page iteration2 s2 page.
Proof.
  intros Hp1 Hp2 Hs1 Hs2 Hlen.
  rewrite <- (lru_reachable_deterministic capacity pages s1 s2 Hs1 Hs2) by lia.
  apply lru_load_page_order_irrelevant; [done..|].
  destruct (lru_reachable_counters capacity pages s1 Hs1) as [Hw Hd]; [lia|].
  eapply touch_distinct; [done | lia | done].
Qed.

End lru_counters.

(** ** Residency *)

Lemma traversal_map_to_list : lru_table.traversal map_to_list.
Proof. intros m. reflexivity. Qed.

Lemma traversal_reverse : lru_table.traversal (λ m, reverse (map_to_list m)).
Proof. intros m. apply reverse_Permutation. Qed.

Lemma elem_of_lru_page_list iteration (s : lru_table.t) (page : Z) :
  lru_table.traversal iteration →
  page ∈ lru_table.get_page_list iteration s ↔ is_Some (lru_table._pageMap s !! page).
Proof.
  intros Horder. unfold lru_table.get_page_list. rewrite list_elem_of_fmap. split.
  - intros ([q c] & -> & Hin). apply (elem_of_iteration iteration Horder) in Hin. by eexists.
  - intros [c Hc]. exists (page, c). split; [done|].
    by apply (elem_of_iteration iteration Horder).
Qed.

Lemma lru_page_list_empty iteration (s : lru_table.t) :
  lru_table.traversal iteration →
  lru_table._pageMap s = ∅ → lru_table.get_page_list iteration s = [].
Proof.
  intros Horder He. apply length_zero_iff_nil.
  rewrite (length_get_page_list iteration Horder), He. apply map_size_empty.
Qed.

(** A hit of [lru_table] within the capacity: nothing is reported, the
    fault counter stays, the map is the touched-and-aged one. *)
Lemma lru_load_page_hit iteration (s : lru_table.t) (page : Z) :
  (N.of_nat (size (lru_table._pageMap s)) ≤ lru_table._capacity s)%N →
  is_Some (lru_table._pageMap s !! page) →
  lru_table.load_page iteration s page =
    ((false, NO_PAGE),
     lru_table.mk (lru_table.touch (lru_table._pageMap s) page)
       (lru_table._capacity s) (lru_table._page_fault_count s)).
Proof.
  intros Hle [c Hc].
  rewrite lru_load_page_keeps.
  - unfold lru_table.count_after. rewrite bool_decide_eq_false_2; [done|]. by rewrite Hc.
  - by rewrite size_touch, Hc.
Qed.

Lemma touch_is_Some (m : gmap Z N) (page q : Z) :
  is_Some (m !! page) →
  is_Some (lru_table.touch m page !! q) ↔ is_Some (m !! q).
Proof.
  intros Hp. rewrite lookup_touch. destruct (decide (q = page)) as [->|Hne].
  - split; [done | by eexists].
  - by rewrite fmap_is_Some.
Qed.

(** With room for at least one page, and counters that have not wrapped,
    the page just loaded is never the one erased. *)
Lemma lru_touched_page_stays iteration (s : lru_table.t) (page : Z) (n : N) :
  lru_table.traversal iteration →
  lru_table.counters_within n (lru_table._pageMap s) →
  (n + 1 < SIZE_MODULUS)%N →
  (1 ≤ lru_table._capacity s)%N →
  lru_table._pageMap (lru_table.load_page iteration s page).2 !! page = Some 1%N.
Proof.
  intros Horder Hw Hn Hcap.
  destruct (N.le_gt_cases
              (N.of_nat (size (lru_table.touch (lru_table._pageMap s) page)))
              (lru_table._capacity s)) as [Hk|He].
  - rewrite lru_load_page_keeps by done. apply lookup_touch_eq.
  - destruct (lru_load_page_evicts iteration Horder s page He)
      as (evicted & counter & Hin & Hmax & ->). simpl.
    destruct (decide (evicted = page)) as [->|Hne];
      [|rewrite lookup_delete_ne by done; apply lookup_touch_eq].
    rewrite lookup_touch_eq in Hin. injection Hin as <-.
    destruct (map_choose (delete page (lru_table.touch (lru_table._pageMap s) page)))
      as (q & c & Hq).
    { apply map_size_non_empty_iff.
      rewrite map_size_delete_Some by (rewrite lookup_touch_eq; by eexists). lia. }
    apply lookup_delete_Some in Hq as [Hne Hq].
    pose proof (Hmax q c Hq).
    destruct (lookup_touch_other n _ page q c Hw Hn (not_eq_sym Hne) Hq)
      as (c0 & _ & -> & ?). lia.
Qed.

(** ** The fault counter and the range of [int] *)

Lemma wrap_int_range (x : Z) : INT_MIN ≤ wrap_int x ≤ INT_MAX.
Proof.
  unfold wrap_int, INT_MIN, INT_MAX.
  pose proof (Z.mod_pos_bound (x + 2147483648) 4294967296). lia.
Qed.

Lemma fifo_load_page_count (s : fifo_table.t) (page : Z) :
  fifo_table._page_fault_count (fifo_table.load_page s page).2
  = if bool_decide (page ∈ fifo_table._pageQueue s)
    then fifo_table._page_fault_count s
    else int_incr (fifo_table._page_fault_count s).
Proof.
  case_bool_decide as Hin.
  - by rewrite fifo_load_page_hit.
  - rewrite fifo_load_page_miss by done. cbv zeta. by case_match.
Qed.

Lemma fifo_run_count_range (capacity : N) (pages : list Z) :
  INT_MIN ≤ fifo_table._page_fault_count (fifo_table.run capacity pages) ≤ INT_MAX.
Proof.
  induction pages as [|page pages IH] using rev_ind; [done|].
  rewrite fifo_run_snoc, fifo_load_page_count.
  case_match; [done | apply wrap_int_range].
Qed.

Lemma lru_reachable_count_range (capacity : N) (pages : list Z) (s : lru_table.t) :
  lru_table.reachable capacity pages s →
  INT_MIN ≤ lru_table._page_fault_count s ≤ INT_MAX.
Proof.
  induction 1 as [|pages s iteration page Hs IH Horder]; [done|].
  rewrite lru_load_page_count. unfold lru_table.count_after.
  case_match; [apply wrap_int_range | done].
Qed.

Lemma fifo_load_page_queue_elem (s : fifo_table.t) (page x : Z) :
  x ∈ fifo_table._pageQueue (fifo_table.load_page s page).2 →
  x ∈ fifo_table._pageQueue s ∨ x = page.
Proof.
  destruct (decide (page ∈ fifo_table._pageQueue s)) as [Hin|Hin].
  - rewrite fifo_load_page_hit by done. by left.
  - rewrite fifo_load_page_miss by done. cbv zeta.
    assert (x ∈ fifo_table._pageQueue s ++ [page] →
            x ∈ fifo_table._pageQueue s ∨ x = page) as Happ.
    { rewrite elem_of_app, list_elem_of_singleton. done. }
    case_match; simpl; [|done]. intros Hx. apply Happ.
    unfold fifo_table.pop_front in Hx.
    destruct (fifo_table._pageQueue s ++ [page]); simpl in Hx; [done|].
    by apply list_elem_of_further.
Qed.

(** Loading the pages 0, 1, ..., n-1 in turn: each call faults. *)
Lemma fifo_run_fresh_pages (capacity : N) (n : nat) :
  Z.of_nat n ≤ INT_MAX →
  fifo_table._page_fault_count (fifo_table.run capacity (seqZ 0 (Z.of_nat n)))
  = Z.of_nat n
  ∧ ∀ x, x ∈ fifo_table._pageQueue (fifo_table.run capacity (seqZ 0 (Z.of_nat n))) →
         0 ≤ x < Z.of_nat n.
Proof.
  induction n as [|n IH]; intros Hn.
  - split; [done|]. intros x Hx. by apply elem_of_nil in Hx.
  - destruct IH as [Hc Hq]; [lia|].
    rewrite seqZ_S, fifo_run_snoc. rewrite Z.add_0_l. split.
    + rewrite fifo_load_page_count, bool_decide_eq_false_2.
      * rewrite Hc. rewrite int_incr_below; unfold INT_MIN; lia.
      * intros Hx. apply Hq in Hx. lia.
    + intros x Hx. apply fifo_load_page_queue_elem in Hx as [Hx| ->]; [|lia].
      apply Hq in Hx. lia.
Qed.

Lemma lru_run_fresh_pages iteration (capacity : N) (n : nat) :
  Z.of_nat n ≤ INT_MAX →
  lru_table._page_fault_count (lru_table.run iteration capacity (seqZ 0 (Z.of_nat n)))
  = Z.of_nat n
  ∧ ∀ x, is_Some (lru_table._pageMap
                    (lru_table.run iteration capacity (seqZ 0 (Z.of_nat n))) !! x) →
         0 ≤ x < Z.of_nat n.
Proof.
  induction n as [|n IH]; intros Hn.
  - split; [done|]. intros x [c Hx]. simpl in Hx. by rewrite lookup_empty in Hx.
  - destruct IH as [Hc Hq]; [lia|].
    rewrite seqZ_S. unfold lru_table.run. rewrite foldl_snoc.
    fold (lru_table.run iteration capacity (seqZ 0 (Z.of_nat n))).
    rewrite Z.add_0_l. split.
    + rewrite lru_load_page_count. unfold lru_table.count_after.
      rewrite bool_decide_eq_true_2.
      * rewrite Hc. rewrite int_incr_below; unfold INT_MIN; lia.
      * apply eq_None_not_Some. intros Hx. apply Hq in Hx. lia.
    + intros x [c Hx].
      eapply lookup_weaken in Hx; [|apply lru_load_page_subseteq].
      rewrite lookup_touch in Hx. destruct (decide (x = Z.of_nat n)) as [->|Hne]; [lia|].
      destruct (lru_table._pageMap _ !! x) as [c0|] eqn:Hc0; [|done].
      specialize (Hq x (mk_is_Some _ _ Hc0)). lia.
Qed.

(** The same at a length given as an [int]. *)
Lemma run_fresh_pages iteration (capacity : N) (k : Z) :
  0 ≤ k ≤ INT_MAX →
  (fifo_table._page_fault_count (fifo_table.run capacity (seqZ 0 k)) = k
   ∧ k ∉ fifo_table._pageQueue (fifo_table.run capacity (seqZ 0 k)))
  ∧ (lru_table._page_fault_count (lru_table.run iteration capacity (seqZ 0 k)) = k
     ∧ lru_table._pageMap (lru_table.run iteration capacity (seqZ 0 k)) !! k = None).
Proof.
  intros Hk.
  destruct (fifo_run_fresh_pages capacity (Z.to_nat k)) as [Hfc Hfq];
    [rewrite Z2Nat.id; lia|].
  destruct (lru_run_fresh_pages iteration capacity (Z.to_nat k)) as [Hlc Hlq];
    [rewrite Z2Nat.id; lia|].
  rewrite Z2Nat.id in * by lia. split; split; try done.
  - intros Hx. apply Hfq in Hx. lia.
  - apply eq_None_not_Some. intros Hx. apply Hlq in Hx. lia.
Qed.

(** ** Counters that wrap *)

(** Page 1 is loaded once and page 2 again and again, with room for both:
    nothing is ever erased, page 2 keeps counter 1 and the counter of page
    1 grows by one per call, modulo [2^64]. *)
Lemma lru_run_repeated_hit iteration (n : nat) :
  lru_table.run iteration 2 (1 :: repeat 2 (S n))
  = lru_table.mk
      (<[2 := 1%N]> (<[1 := ((2 + N.of_nat n) mod SIZE_MODULUS)%N]> ∅)) 2 2.
Proof.
  induction n as [|n IH].
  - vm_compute. reflexivity.
  - replace (1 :: repeat 2 (S (S n))) with ((1 :: repeat 2 (S n)) ++ [2])
      by (change (repeat 2 (S (S n))) with (2 :: repeat 2 (S n));
          rewrite (repeat_cons (S n)); reflexivity).
    unfold lru_table.run. rewrite foldl_snoc.
    fold (lru_table.run iteration 2 (1 :: repeat 2 (S n))). rewrite IH.
    set (c := ((2 + N.of_nat n) mod SIZE_MODULUS)%N).
    assert (size (<[2 := 1%N]> (<[1 := c]> (∅ : gmap Z N))) = 2%nat) as Hsize.
    { rewrite map_size_insert_None by (by rewrite lookup_insert_ne).
      by rewrite map_size_insert_None, map_size_empty. }
    rewrite lru_load_page_keeps; simpl.
    + unfold lru_table.count_after. simpl.
      rewrite bool_decide_eq_false_2 by (by rewrite lookup_insert_eq).
      f_equal. rewrite touch_eq, insert_insert_eq, !fmap_insert, fmap_empty.
      f_equal. f_equal. subst c. unfold size_incr.
      rewrite N.Div0.add_mod_idemp_l. f_equal. lia.
    + rewrite size_touch, lookup_insert_eq, Hsize. lia.
Qed.

(** The same for a number of calls given as an [N]. *)
Lemma lru_run_repeated_hit_N iteration (k : N) :
  (0 < k)%N →
  lru_table.run iteration 2 (1 :: repeat 2 (N.to_nat k))
  = lru_table.mk (<[2 := 1%N]> (<[1 := ((1 + k) mod SIZE_MODULUS)%N]> ∅)) 2 2.
Proof.
  intros Hk. destruct (N.to_nat k) as [|n] eqn:Hn; [lia|].
  rewrite lru_run_repeated_hit. do 4 f_equal. lia.
Qed.

(** * The claims *)

(** C1. For every capacity and every sequence of [load_page] calls on a
    fresh [fifo_table] or [lru_table], the list [get_page_list()] returns
    after the calls has at most [capacity] entries. A sequence stands for
    each of its prefixes, so this is the bound after every call. *)
Theorem capacity_invariant
    (iteration : gmap Z N → list (Z * N)) (capacity : N) (pages : list Z)
    (lru : lru_table.t) :
  lru_table.traversal iteration →
  lru_table.reachable capacity pages lru →
  N.le (N.of_nat (length (fifo_table.get_page_list (fifo_table.run capacity pages))))
       capacity
  ∧ N.le (N.of_nat (length (lru_table.get_page_list iteration lru))) capacity.
Proof.
  intros Horder Hlru. split.
  - apply fifo_run_bounded.
  - rewrite (length_get_page_list iteration Horder).
    by eapply lru_reachable_bounded.
Qed.

Lemma capacity_invariant_witness :
  lru_table.traversal map_to_list
  ∧ lru_table.reachable 3 [1; 2; 3; 1; 4] (lru_table.run map_to_list 3 [1; 2; 3; 1; 4])
  ∧ N.le (N.of_nat (length (fifo_table.get_page_list
                              (fifo_table.run 3 [1; 2; 3; 1; 4])))) 3
  ∧ N.le (N.of_nat (length (lru_table.get_page_list map_to_list
                              (lru_table.run map_to_list 3 [1; 2; 3; 1; 4])))) 3.
Proof.
  pose proof (lru_run_reachable map_to_list traversal_map_to_list 3 [1; 2; 3; 1; 4])
    as Hlru.
  split; [exact traversal_map_to_list|]. split; [exact Hlru|].
  exact (capacity_invariant map_to_list 3 [1; 2; 3; 1; 4] _ traversal_map_to_list Hlru).
Defined.

(** C2, the claim as stated fails: after the 2147483647 faults of loading
    the pages 0 to 2147483646, the fault counter of either table is
    [INT_MAX]; page 2147483647 is not resident, and loading it takes the
    counter to [INT_MIN] instead of one higher. *)
Lemma fault_count_wraps_at_INT_MAX :
  let pages := seqZ 0 2147483647 in
  let fifo := fifo_table.run 3 pages in
  let lru := lru_table.run map_to_list 3 pages in
  (2147483647 ∉ fifo_table.get_page_list fifo)
  ∧ fifo_table.get_page_fault_count fifo = 2147483647
  ∧ fifo_table.get_page_fault_count (fifo_table.load_page fifo 2147483647).2
    = -2147483648
  ∧ lru_table.reachable 3 pages lru
  ∧ (2147483647 ∉ lru_table.get_page_list map_to_list lru)
  ∧ lru_table.get_page_fault_count lru = 2147483647
  ∧ lru_table.get_page_fault_count (lru_table.load_page map_to_list lru 2147483647).2
    = -2147483648.
Proof.
  destruct (run_fresh_pages map_to_list 3 2147483647) as [[Hfc Hfq] [Hlc Hlq]];
    [unfold INT_MAX; lia|].
  pose proof (lru_run_reachable map_to_list traversal_map_to_list 3
                (seqZ 0 2147483647)) as Hreach.
  cbv zeta. revert Hfc Hfq Hlc Hlq Hreach.
  generalize (fifo_table.run 3 (seqZ 0 2147483647))
             (lru_table.run map_to_list 3 (seqZ 0 2147483647)).
  intros fifo lru Hfc Hfq Hlc Hlq Hreach.
  unfold fifo_table.get_page_list, fifo_table.get_page_fault_count,
    lru_table.get_page_fault_count.
  split; [done|]. split; [done|]. split.
  { rewrite fifo_load_page_count, bool_decide_eq_false_2 by done. by rewrite Hfc. }
  split; [done|]. split.
  { rewrite (elem_of_lru_page_list map_to_list lru _ traversal_map_to_list).
    rewrite Hlq. by intros [c Hc]. }
  split; [done|].
  rewrite lru_load_page_count. unfold lru_table.count_after.
  rewrite bool_decide_eq_true_2 by done. by rewrite Hlc.
Qed.

(** C2, amended. After any sequence of calls on either table, a
    [load_page(page)] call leaves [get_page_fault_count()] unchanged when
    [page] is resident; and while the counter is below [INT_MAX] before the
    call, the call does not decrease it and increases it by exactly 1 if
    and only if [page] was not resident. *)
Theorem fault_count_step_below_INT_MAX
    (iteration : gmap Z N → list (Z * N)) (capacity : N) (pages : list Z)
    (lru : lru_table.t) (page : Z) :
  lru_table.traversal iteration →
  lru_table.reachable capacity pages lru →
  let fifo := fifo_table.run capacity pages in
  let fifo_before := fifo_table.get_page_fault_count fifo in
  let fifo_after := fifo_table.get_page_fault_count (fifo_table.load_page fifo page).2 in
  let lru_before := lru_table.get_page_fault_count lru in
  let lru_after :=
    lru_table.get_page_fault_count (lru_table.load_page iteration lru page).2 in
  (page ∈ fifo_table.get_page_list fifo → fifo_after = fifo_before)
  ∧ (fifo_before < INT_MAX →
     fifo_before ≤ fifo_after
     ∧ (page ∉ fifo_table.get_page_list fifo ↔ fifo_after = fifo_before + 1))
  ∧ (page ∈ lru_table.get_page_list iteration lru → lru_after = lru_before)
  ∧ (lru_before < INT_MAX →
     lru_before ≤ lru_after
     ∧ (page ∉ lru_table.get_page_list iteration lru ↔ lru_after = lru_before + 1)).
Proof.
  intros Horder Hlru fifo fifo_before fifo_after lru_before lru_after.
  assert (lru_after = if bool_decide (page ∈ lru_table.get_page_list iteration lru)
                      then lru_before else int_incr lru_before) as Hl.
  { subst lru_after. unfold lru_table.get_page_fault_count.
    rewrite lru_load_page_count. unfold lru_table.count_after.
    pose proof (elem_of_lru_page_list iteration lru page Horder) as Hres.
    rewrite <- not_eq_None_Some in Hres.
    do 2 case_bool_decide; try done; tauto. }
  assert (fifo_after = if bool_decide (page ∈ fifo_table.get_page_list fifo)
                       then fifo_before else int_incr fifo_before) as Hf.
  { apply fifo_load_page_count. }
  assert (INT_MIN ≤ fifo_before ≤ INT_MAX) as Hfr by apply fifo_run_count_range.
  assert (INT_MIN ≤ lru_before ≤ INT_MAX) as Hlr
    by (by eapply lru_reachable_count_range).
  clearbody fifo_after lru_after fifo_before lru_before.
  split; [|split; [|split]].
  - intros Hin. by rewrite Hf, bool_decide_eq_true_2.
  - intros Hlt. clear Hl. rewrite Hf. case_bool_decide as Hin.
    + split; [lia|]. split; [done | lia].
    + rewrite int_incr_below by lia. split; [lia | done].
  - intros Hin. by rewrite Hl, bool_decide_eq_true_2.
  - intros Hlt. clear Hf. rewrite Hl. case_bool_decide as Hin.
    + split; [lia|]. split; [done | lia].
    + rewrite int_incr_below by lia. split; [lia | done].
Qed.

Lemma fault_count_step_below_INT_MAX_witness :
  lru_table.traversal map_to_list
  ∧ lru_table.reachable 3 [1; 2; 3] (lru_table.run map_to_list 3 [1; 2; 3])
  ∧ fifo_table.get_page_fault_count (fifo_table.run 3 [1; 2; 3]) < INT_MAX
  ∧ lru_table.get_page_fault_count (lru_table.run map_to_list 3 [1; 2; 3]) < INT_MAX
  ∧ ((4 ∉ fifo_table.get_page_list (fifo_table.run 3 [1; 2; 3]))
     ↔ fifo_table.get_page_fault_count
         (fifo_table.load_page (fifo_table.run 3 [1; 2; 3]) 4).2
       = fifo_table.get_page_fault_count (fifo_table.run 3 [1; 2; 3]) + 1)
  ∧ ((4 ∉ lru_table.get_page_list map_to_list (lru_table.run map_to_list 3 [1; 2; 3]))
     ↔ lru_table.get_page_fault_count
         (lru_table.load_page map_to_list (lru_table.run map_to_list 3 [1; 2; 3]) 4).2
       = lru_table.get_page_fault_count (lru_table.run map_to_list 3 [1; 2; 3]) + 1).
Proof.
  pose proof (lru_run_reachable map_to_list traversal_map_to_list 3 [1; 2; 3]) as Hlru.
  assert (fifo_table.get_page_fault_count (fifo_table.run 3 [1; 2; 3]) < INT_MAX) as Hf
    by (vm_compute; reflexivity).
  assert (lru_table.get_page_fault_count (lru_table.run map_to_list 3 [1; 2; 3]) < INT_MAX)
    as Hl by (vm_compute; reflexivity).
  split; [exact traversal_map_to_list|]. split; [exact Hlru|].
  split; [exact Hf|]. split; [exact Hl|].
  destruct (fault_count_step_below_INT_MAX map_to_list 3 [1; 2; 3] _ 4
              traversal_map_to_list Hlru) as (_ & Hfifo & _ & Hlru').
  split.
  - exact (proj2 (Hfifo Hf)).
  - exact (proj2 (Hlru' Hl)).
Defined.

(** C3. When [page] is already in the queue of a [fifo_table],
    [load_page(page)] returns [(false, -1)] and leaves the whole table as
    it was: the queue with its order, the capacity and the fault counter. *)
Theorem fifo_hit_changes_nothing (s : fifo_table.t) (page : Z) :
  page ∈ fifo_table.get_page_list s →
  (fifo_table.load_page s page).1 = (false, -1)
  ∧ (fifo_table.load_page s page).2 = s.
Proof.
  intros Hin. by rewrite fifo_load_page_hit.
Qed.

Lemma fifo_hit_changes_nothing_witness :
  2 ∈ fifo_table.get_page_list (fifo_table.mk [1; 2; 3] 3 3)
  ∧ (fifo_table.load_page (fifo_table.mk [1; 2; 3] 3 3) 2).1 = (false, -1)
  ∧ (fifo_table.load_page (fifo_table.mk [1; 2; 3] 3 3) 2).2
    = fifo_table.mk [1; 2; 3] 3 3.
Proof.
  assert (2 ∈ fifo_table.get_page_list (fifo_table.mk [1; 2; 3] 3 3)) as Hin.
  { simpl. apply list_elem_of_further, list_elem_of_here. }
  split; [exact Hin|].
  exact (fifo_hit_changes_nothing (fifo_table.mk [1; 2; 3] 3 3) 2 Hin).
Defined.




(** C5. Loading 1, 2, 3, 1, 4 into a fresh [lru_table] of capacity 3,
    whatever the traversal orders: the fourth call, the second access to
    page 1, leaves page 1 with the least counter and page 2 with the
    greatest, and the fifth call reports a fault and the eviction of page
    2; page 1 stays resident. *)
Theorem lru_evicts_least_recently_used
    (iteration : gmap Z N → list (Z * N)) (s4 : lru_table.t) :
  lru_table.traversal iteration →
  lru_table.reachable 3 [1; 2; 3; 1] s4 →
  let s5 := (lru_table.load_page iteration s4 4).2 in
  lru_table._pageMap s4 !! 1 = Some 1%N
  ∧ lru_table._pageMap s4 !! 2 = Some 3%N
  ∧ lru_table._pageMap s4 !! 3 = Some 2%N
  ∧ (lru_table.load_page iteration s4 4).1 = (true, 2)
  ∧ is_Some (lru_table._pageMap s5 !! 1)
  ∧ lru_table._pageMap s5 !! 2 = None.
Proof.
  intros Horder Hs4 s5. subst s5.
  pose proof (lru_run_reachable map_to_list traversal_map_to_list 3 [1; 2; 3; 1]) as Hrun.
  rewrite (lru_next_call_order_irrelevant iteration map_to_list 3 [1; 2; 3; 1] s4 _ 4
             Horder traversal_map_to_list Hs4 Hrun) by (vm_compute; done).
  rewrite (lru_reachable_deterministic 3 [1; 2; 3; 1] s4 _ Hs4 Hrun)
    by (vm_compute; done).
  repeat split; try (vm_compute; reflexivity).
  exists 2%N. vm_compute. reflexivity.
Qed.

Lemma lru_evicts_least_recently_used_witness :
  lru_table.traversal map_to_list
  ∧ lru_table.reachable 3 [1; 2; 3; 1] (lru_table.run map_to_list 3 [1; 2; 3; 1])
  ∧ (lru_table.load_page map_to_list (lru_table.run map_to_list 3 [1; 2; 3; 1]) 4).1
    = (true, 2).
Proof.
  pose proof (lru_run_reachable map_to_list traversal_map_to_list 3 [1; 2; 3; 1]) as Hrun.
  split; [exact traversal_map_to_list|]. split; [exact Hrun|].
  exact (proj1 (proj2 (proj2 (proj2
    (lru_evicts_least_recently_used map_to_list _ traversal_map_to_list Hrun))))).
Defined.

(** C6, the claim as stated fails: after loading 1, 2, 3, 1, 1 into a
    fresh [lru_table] of capacity 3 the counters are 1 for page 1, 4 for
    page 2 and 3 for page 3. No page has counter 0, and the counters are
    not a run of consecutive values. *)
Lemma lru_counters_start_at_one_and_skip :
  let s := lru_table.run map_to_list 3 [1; 2; 3; 1; 1] in
  let m := lru_table._pageMap s in
  lru_table.reachable 3 [1; 2; 3; 1; 1] s
  ∧ m !! 1 = Some 1%N ∧ m !! 2 = Some 4%N ∧ m !! 3 = Some 3%N ∧ size m = 3%nat
  ∧ (∀ p, m !! p ≠ Some 0%N)
  ∧ ¬ lru_table.exactly_one_with 0 m
  ∧ ¬ lru_table.consecutive_run m.
Proof.
  intros s m. split; [apply lru_run_reachable, traversal_map_to_list|].
  assert (m !! 1 = Some 1%N) as H1 by (vm_compute; reflexivity).
  assert (m !! 2 = Some 4%N) as H2 by (vm_compute; reflexivity).
  assert (m !! 3 = Some 3%N) as H3 by (vm_compute; reflexivity).
  assert (size m = 3%nat) as Hsize by (vm_compute; reflexivity).
  assert (∀ p, m !! p ≠ Some 0%N) as Hzero.
  { assert (map_Forall (λ _ c, c ≠ 0%N) m) as Hall
      by (apply (bool_decide_unpack _); vm_compute; exact I).
    intros p Hp. by apply (Hall p 0%N Hp). }
  clearbody m. do 4 (split; [done|]). split; [done|]. split.
  - intros (p & Hp & _). by apply (Hzero p).
  - intros [lo Hrun]. rewrite Hsize in Hrun.
    pose proof (proj1 (Hrun 1%N) (ex_intro _ 1 H1)).
    pose proof (proj1 (Hrun 4%N) (ex_intro _ 2 H2)). lia.
Qed.

(** C6, amended. After each call of a sequence of fewer than [2^64]
    calls, whatever the traversal orders: in the map in which the eviction
    is decided the page just loaded has counter 1 and every other page a
    counter of at least 2; with a capacity of at least 1 the page just
    loaded is resident after the call, and it is the one page with counter
    1; the counters of the resident pages are pairwise distinct; and when
    the map exceeds the capacity the page erased and reported is one whose
    counter no resident page exceeds, otherwise nothing is erased. *)
Theorem lru_counters_after_call
    (iteration : gmap Z N → list (Z * N)) (capacity : N) (pages : list Z)
    (s : lru_table.t) (page : Z) :
  lru_table.traversal iteration →
  lru_table.reachable capacity pages s →
  N.lt (N.of_nat (length (pages ++ [page]))) SIZE_MODULUS →
  let aged := lru_table.touch (lru_table._pageMap s) page in
  let call := lru_table.load_page iteration s page in
  let m' := lru_table._pageMap call.2 in
  aged !! page = Some 1%N
  ∧ (∀ q c, aged !! q = Some c → q ≠ page → (2 ≤ c)%N)
  ∧ (∀ q c, m' !! q = Some c → q ≠ page → (2 ≤ c)%N)
  ∧ ((1 ≤ capacity)%N → m' !! page = Some 1%N ∧ lru_table.exactly_one_with 1 m')
  ∧ lru_table.counters_distinct m'
  ∧ ((N.of_nat (size aged) ≤ capacity)%N → call.1.2 = -1 ∧ m' = aged)
  ∧ ((capacity < N.of_nat (size aged))%N →
     ∃ counter, aged !! call.1.2 = Some counter
       ∧ lru_table.greatest_counter aged counter
       ∧ m' = delete call.1.2 aged).
Proof.
  intros Horder Hs Hlen aged call m'.
  rewrite length_app in Hlen. simpl in Hlen.
  destruct (lru_reachable_counters capacity pages s Hs) as [Hw Hd]; [lia|].
  assert (lru_table._capacity s = capacity) as Hcap
    by (by eapply lru_reachable_capacity).
  assert (m' ⊆ aged) as Hsub by apply lru_load_page_subseteq.
  assert (∀ q c, aged !! q = Some c → q ≠ page → (2 ≤ c)%N) as Hothers.
  { intros q c Hq Hne.
    destruct (lookup_touch_other _ _ page q c Hw ltac:(lia) Hne Hq) as (c0 & _ & -> & ?).
    lia. }
  assert (∀ q c, m' !! q = Some c → q ≠ page → (2 ≤ c)%N) as Hothers'.
  { intros q c Hq. apply Hothers. by eapply lookup_weaken. }
  split; [apply lookup_touch_eq|]. split; [done|]. split; [done|].
  split; [|split; [|split]].
  - intros Hge.
    assert (m' !! page = Some 1%N) as Hpage.
    { eapply lru_touched_page_stays; [done | done | lia | by rewrite Hcap]. }
    split; [done|]. exists page. split; [done|].
    intros q Hq. destruct (decide (q = page)) as [|Hne]; [done|].
    pose proof (Hothers' q 1%N Hq Hne). lia.
  - eapply counters_distinct_subseteq; [done|].
    eapply touch_distinct; [done | lia | done].
  - intros Hle. subst m' call.
    rewrite lru_load_page_keeps by (by rewrite Hcap). done.
  - intros Hgt. subst m' call.
    destruct (lru_load_page_evicts iteration Horder s page)
      as (evicted & counter & Hin & Hmax & ->); [by rewrite Hcap|].
    simpl. by exists counter.
Qed.

Lemma lru_counters_after_call_witness :
  lru_table.traversal map_to_list
  ∧ lru_table.reachable 3 [1; 2; 3; 1] (lru_table.run map_to_list 3 [1; 2; 3; 1])
  ∧ N.lt (N.of_nat (length ([1; 2; 3; 1] ++ [4]))) SIZE_MODULUS
  ∧ lru_table._pageMap
      (lru_table.load_page map_to_list (lru_table.run map_to_list 3 [1; 2; 3; 1]) 4).2
    !! 4 = Some 1%N
  ∧ lru_table.counters_distinct
      (lru_table._pageMap
         (lru_table.load_page map_to_list (lru_table.run map_to_list 3 [1; 2; 3; 1]) 4).2).
Proof.
  pose proof (lru_run_reachable map_to_list traversal_map_to_list 3 [1; 2; 3; 1]) as Hrun.
  assert (N.lt (N.of_nat (length ([1; 2; 3; 1] ++ [4]))) SIZE_MODULUS) as Hlen
    by (vm_compute; reflexivity).
  split; [exact traversal_map_to_list|]. split; [exact Hrun|]. split; [exact Hlen|].
  destruct (lru_counters_after_call map_to_list 3 [1; 2; 3; 1] _ 4
              traversal_map_to_list Hrun Hlen) as (_ & _ & _ & Htouched & Hdistinct & _).
  split; [|exact Hdistinct].
  apply Htouched. vm_compute. discriminate.
Defined.

(** C7. When [page] is resident after a sequence of calls, two further
    [load_page(page)] calls in a row both return [(false, -1)], neither
    changes [get_page_fault_count()], and the resident pages after them are
    the ones before them; this holds for [fifo_table] and, whatever the
    traversal orders, for [lru_table]. *)
Theorem resident_page_loaded_twice
    (iteration : gmap Z N → list (Z * N)) (capacity : N) (pages : list Z)
    (lru : lru_table.t) (page : Z) :
  lru_table.traversal iteration →
  lru_table.reachable capacity pages lru →
  (let fifo := fifo_table.run capacity pages in
   let call1 := fifo_table.load_page fifo page in
   let call2 := fifo_table.load_page call1.2 page in
   page ∈ fifo_table.get_page_list fifo →
   call1.1 = (false, -1) ∧ call2.1 = (false, -1)
   ∧ fifo_table.get_page_fault_count call1.2 = fifo_table.get_page_fault_count fifo
   ∧ fifo_table.get_page_fault_count call2.2 = fifo_table.get_page_fault_count fifo
   ∧ fifo_table.get_page_list call2.2 = fifo_table.get_page_list fifo)
  ∧ (let call1 := lru_table.load_page iteration lru page in
     let call2 := lru_table.load_page iteration call1.2 page in
     page ∈ lru_table.get_page_list iteration lru →
     call1.1 = (false, -1) ∧ call2.1 = (false, -1)
     ∧ lru_table.get_page_fault_count call1.2 = lru_table.get_page_fault_count lru
     ∧ lru_table.get_page_fault_count call2.2 = lru_table.get_page_fault_count lru
     ∧ ∀ q, q ∈ lru_table.get_page_list iteration call2.2
            ↔ q ∈ lru_table.get_page_list iteration lru).
Proof.
  intros Horder Hlru. split.
  - intros fifo call1 call2 Hin. subst call1 call2.
    rewrite (fifo_load_page_hit fifo page Hin). simpl.
    by rewrite (fifo_load_page_hit fifo page Hin).
  - intros call1 call2 Hin. subst call1 call2.
    apply (elem_of_lru_page_list iteration lru page Horder) in Hin.
    assert (N.of_nat (size (lru_table._pageMap lru)) ≤ lru_table._capacity lru)%N as Hle.
    { rewrite (lru_reachable_capacity capacity pages lru Hlru).
      by eapply lru_reachable_bounded. }
    rewrite (lru_load_page_hit iteration lru page Hle Hin). simpl.
    assert (is_Some (lru_table.touch (lru_table._pageMap lru) page !! page)) as Hin'.
    { by apply touch_is_Some. }
    rewrite lru_load_page_hit; simpl; [| |done].
    + do 4 (split; [done|]). intros q.
      rewrite !(elem_of_lru_page_list iteration _ _ Horder). simpl.
      rewrite (touch_is_Some _ page q Hin'). by apply touch_is_Some.
    + rewrite size_touch. by destruct Hin as [c ->].
Qed.

Lemma resident_page_loaded_twice_witness :
  lru_table.traversal map_to_list
  ∧ lru_table.reachable 3 [1; 2; 3] (lru_table.run map_to_list 3 [1; 2; 3])
  ∧ 2 ∈ fifo_table.get_page_list (fifo_table.run 3 [1; 2; 3])
  ∧ 2 ∈ lru_table.get_page_list map_to_list (lru_table.run map_to_list 3 [1; 2; 3])
  ∧ (fifo_table.load_page (fifo_table.run 3 [1; 2; 3]) 2).1 = (false, -1)
  ∧ (lru_table.load_page map_to_list (lru_table.run map_to_list 3 [1; 2; 3]) 2).1
    = (false, -1).
Proof.
  pose proof (lru_run_reachable map_to_list traversal_map_to_list 3 [1; 2; 3]) as Hrun.
  assert (2 ∈ fifo_table.get_page_list (fifo_table.run 3 [1; 2; 3])) as Hf.
  { apply (bool_decide_unpack _). vm_compute. exact I. }
  assert (2 ∈ lru_table.get_page_list map_to_list
                (lru_table.run map_to_list 3 [1; 2; 3])) as Hl.
  { apply (bool_decide_unpack _). vm_compute. exact I. }
  split; [exact traversal_map_to_list|]. split; [exact Hrun|].
  split; [exact Hf|]. split; [exact Hl|].
  destruct (resident_page_loaded_twice map_to_list 3 [1; 2; 3] _ 2
              traversal_map_to_list Hrun) as [Hfifo Hlru].
  split.
  - exact (proj1 (Hfifo Hf)).
  - exact (proj1 (Hlru Hl)).
Defined.

(** C8. With capacity 0, after any sequence of calls, [load_page(page)]
    reports a fault and [page] itself as the evicted page, and leaves no
    resident page; this holds for [fifo_table] and, whatever the traversal
    orders, for [lru_table]. *)
Theorem zero_capacity_self_eviction
    (iteration : gmap Z N → list (Z * N)) (pages : list Z)
    (lru : lru_table.t) (page : Z) :
  lru_table.traversal iteration →
  lru_table.reachable 0 pages lru →
  let fifo_call := fifo_table.load_page (fifo_table.run 0 pages) page in
  let lru_call := lru_table.load_page iteration lru page in
  fifo_call.1 = (true, page) ∧ fifo_table.get_page_list fifo_call.2 = []
  ∧ lru_call.1 = (true, page) ∧ lru_table.get_page_list iteration lru_call.2 = [].
Proof.
  intros Horder Hlru fifo_call lru_call. subst fifo_call lru_call.
  rewrite assoc by apply _. split.
  - pose proof (fifo_run_zero_capacity pages) as Hq.
    pose proof (fifo_run_capacity 0 pages) as Hc.
    assert (page ∉ fifo_table._pageQueue (fifo_table.run 0 pages)) as Hin
      by (rewrite Hq; apply not_elem_of_nil).
    rewrite (fifo_load_page_miss _ _ Hin), Hq, Hc. done.
  - pose proof (lru_reachable_zero_capacity pages lru Hlru) as Hm.
    pose proof (lru_reachable_capacity 0 pages lru Hlru) as Hc.
    destruct (lru_load_page_evicts iteration Horder lru page)
      as (evicted & counter & Hin & _ & ->).
    { rewrite Hc, size_touch, Hm, lookup_empty, map_size_empty. lia. }
    rewrite Hm in *. rewrite lookup_touch in Hin.
    destruct (decide (evicted = page)) as [->|?];
      [|by rewrite lookup_empty in Hin].
    simpl. split; [by rewrite bool_decide_eq_true_2 by apply lookup_empty|].
    apply lru_page_list_empty; [done|]. simpl.
    rewrite touch_eq, <- fmap_delete, delete_insert_eq, delete_empty.
    apply fmap_empty.
Qed.

Lemma zero_capacity_self_eviction_witness :
  lru_table.traversal map_to_list
  ∧ lru_table.reachable 0 [1; 2; 1] (lru_table.run map_to_list 0 [1; 2; 1])
  ∧ (fifo_table.load_page (fifo_table.run 0 [1; 2; 1]) 7).1 = (true, 7)
  ∧ (lru_table.load_page map_to_list (lru_table.run map_to_list 0 [1; 2; 1]) 7).1
    = (true, 7).
Proof.
  pose proof (lru_run_reachable map_to_list traversal_map_to_list 0 [1; 2; 1]) as Hrun.
  split; [exact traversal_map_to_list|]. split; [exact Hrun|].
  pose proof (zero_capacity_self_eviction map_to_list [1; 2; 1] _ 7
                traversal_map_to_list Hrun) as (Hf & _ & Hl & _).
  split; [exact Hf | exact Hl].
Defined.

(** *** The loops of [load_page], step by step *)

(** With fuel for one test more than there are entries left, [std::find]
    returns, and returns the position that [find] computes. *)
Lemma find_loop_returns (fuel : nat) (q : list Z) (first : nat) (page : Z) :
  (first ≤ length q)%nat → (length q - first < fuel)%nat →
  fifo_table.find_loop fuel q first page
  = Some (first + fifo_table.find (drop first q) page)%nat.
Proof.
  revert first. induction fuel as [|fuel IH]; intros first Hle Hfuel; [lia|].
  simpl. destruct (q !! first) as [x|] eqn:Hx.
  - rewrite (drop_S q x first Hx). simpl.
    pose proof (lookup_lt_Some _ _ _ Hx).
    destruct (x =? page); [f_equal; lia|].
    rewrite IH by lia. f_equal. lia.
  - apply lookup_ge_None in Hx. rewrite drop_ge by lia. simpl. f_equal. lia.
Qed.

(** With less fuel than the scan needs, the loop is cut short. *)
Lemma find_loop_out_of_fuel (fuel : nat) (q : list Z) (first : nat) (page : Z) :
  (fuel ≤ fifo_table.find (drop first q) page)%nat →
  fifo_table.find_loop fuel q first page = None.
Proof.
  revert first. induction fuel as [|fuel IH]; intros first Hfuel; [done|].
  simpl. destruct (q !! first) as [x|] eqn:Hx.
  - rewrite (drop_S q x first Hx) in Hfuel. simpl in Hfuel.
    destruct (x =? page); [lia|]. apply IH. lia.
  - apply lookup_ge_None in Hx. rewrite drop_ge in Hfuel by lia. simpl in Hfuel. lia.
Qed.

Lemma fifo_load_page_loops_returns (fuel : nat) (s : fifo_table.t) (page : Z) :
  (length (fifo_table._pageQueue s) < fuel)%nat →
  fifo_table.load_page_loops fuel s page = Some (fifo_table.load_page s page).
Proof.
  intros Hfuel. unfold fifo_table.load_page_loops, fifo_table.load_page.
  rewrite find_loop_returns by lia. rewrite drop_0. simpl.
  destruct (_ =? _)%nat; [|done]. by destruct (_ <? _)%N.
Qed.

(** Incrementing under each key of a list without duplicates increments
    the counters of exactly the keys in the list. *)
Lemma lookup_foldl_alter (keys : list Z) (m : gmap Z N) (k : Z) :
  NoDup keys →
  foldl (λ m key, alter size_incr key m) m keys !! k
  = if bool_decide (k ∈ keys) then size_incr <$> m !! k else m !! k.
Proof.
  revert m. induction keys as [|x keys IH]; intros m Hnd; simpl.
  - done.
  - apply NoDup_cons in Hnd as [Hx Hnd]. rewrite IH by done.
    destruct (decide (k = x)) as [->|Hne].
    + rewrite (bool_decide_eq_false_2 _ Hx).
      rewrite (bool_decide_eq_true_2 (x ∈ x :: keys)) by apply list_elem_of_here.
      apply lookup_alter_eq.
    + rewrite lookup_alter_ne by done.
      destruct (decide (k ∈ keys)) as [Hin|Hout].
      * rewrite (bool_decide_eq_true_2 _ Hin).
        by rewrite (bool_decide_eq_true_2 (k ∈ x :: keys))
          by (by apply list_elem_of_further).
      * rewrite (bool_decide_eq_false_2 _ Hout).
        rewrite (bool_decide_eq_false_2 (k ∈ x :: keys)); [done|].
        rewrite elem_of_cons. by intros [?|?].
Qed.

Lemma age_loop_returns (fuel : nat) (keys : list Z) (position : nat) (m : gmap Z N) :
  (length keys - position < fuel)%nat →
  lru_table.age_loop fuel keys position m
  = Some (foldl (λ m key, alter size_incr key m) m (drop position keys)).
Proof.
  revert position m. induction fuel as [|fuel IH]; intros position m Hfuel; [lia|].
  simpl. destruct (keys !! position) as [key|] eqn:Hkey.
  - rewrite (drop_S keys key position Hkey). simpl.
    pose proof (lookup_lt_Some _ _ _ Hkey). apply IH. lia.
  - apply lookup_ge_None in Hkey. by rewrite drop_ge by lia.
Qed.

(** The aging loop over a traversal of the map returns the map with all
    its counters incremented. *)
Lemma age_loop_traversal iteration (fuel : nat) (m : gmap Z N) :
  lru_table.traversal iteration →
  (size m < fuel)%nat →
  lru_table.age_loop fuel (iteration m).*1 0 m = Some (size_incr <$> m).
Proof.
  intros Horder Hfuel.
  rewrite age_loop_returns
    by (rewrite length_fmap, (length_iteration iteration Horder); lia).
  rewrite drop_0. f_equal. apply map_eq. intros k.
  rewrite lookup_foldl_alter
    by (rewrite (Horder m); apply NoDup_fst_map_to_list).
  rewrite lookup_fmap. case_bool_decide as Hin; [done|].
  destruct (m !! k) as [c|] eqn:Hk; [|done]. exfalso. apply Hin.
  apply (elem_of_lru_page_list iteration (lru_table.mk m 0 0) k Horder). by eexists.
Qed.

Lemma max_element_loop_returns
    (fuel : nat) (range : list (Z * N)) (largest first : nat) (max : Z * N) :
  range !! largest = Some max →
  (length range - first < fuel)%nat →
  ∃ position,
    lru_table.max_element_loop fuel range largest first = Some position
    ∧ range !! position
      = Some (lru_table.max_element_from max (drop first range)).
Proof.
  revert largest first max.
  induction fuel as [|fuel IH]; intros largest first max Hmax Hfuel; [lia|].
  simpl. destruct (range !! first) as [kvp|] eqn:Hkvp.
  - rewrite Hmax, (drop_S range kvp first Hkvp). simpl.
    pose proof (lookup_lt_Some _ _ _ Hkvp).
    apply IH; [|lia]. by destruct (lru_table.compareFunction max kvp).
  - apply lookup_ge_None in Hkvp. rewrite drop_ge by lia. by exists largest.
Qed.

Lemma max_element_steps_returns (fuel : nat) (range : list (Z * N)) :
  (length range ≤ fuel)%nat →
  lru_table.max_element_steps fuel range = Some (lru_table.max_element range).
Proof.
  intros Hfuel. destruct range as [|first rest]; [done|].
  unfold lru_table.max_element_steps.
  destruct (max_element_loop_returns fuel (first :: rest) 0 1 first)
    as (position & -> & ->); [done | simpl in *; lia |].
  done.
Qed.

Lemma lru_load_page_loops_returns iteration (fuel : nat) (s : lru_table.t) (page : Z) :
  lru_table.traversal iteration →
  (S (size (lru_table._pageMap s)) < fuel)%nat →
  lru_table.load_page_loops iteration fuel s page
  = Some (lru_table.load_page iteration s page).
Proof.
  intros Horder Hfuel. unfold lru_table.load_page_loops, lru_table.load_page.
  set (m2 := <[page := 0%N]>
               (if bool_decide (lru_table._pageMap s !! page = None)
                then <[page := 0%N]> (lru_table._pageMap s)
                else lru_table._pageMap s)).
  assert (size_incr <$> m2 = lru_table.touch (lru_table._pageMap s) page) as Hm2.
  { unfold lru_table.touch. subst m2.
    by destruct (lru_table._pageMap s !! page). }
  pose proof (size_touch (lru_table._pageMap s) page) as Hsize.
  rewrite <- Hm2, map_size_fmap in Hsize.
  rewrite age_loop_traversal; [|done|].
  2:{ destruct (lru_table._pageMap s !! page); lia. }
  rewrite Hm2.
  destruct (_ <? _)%N; [|done].
  rewrite max_element_steps_returns.
  - by destruct (lru_table.max_element _).
  - rewrite (length_iteration iteration Horder), <- Hm2, map_size_fmap.
    destruct (lru_table._pageMap s !! page); lia.
Qed.

(** C9. Every [load_page] call returns. With its loops, [std::find], the
    aging pass and [std::max_element], run one step at a time on a fuel
    of loop tests, the call on a table reached by any calls, at any
    capacity and under any traversal order, comes to its end on every fuel
    of at least [capacity + 2], and returns what [load_page] returns: no
    loop makes more than [capacity + 2] tests. *)
Theorem load_page_terminates
    (iteration : gmap Z N → list (Z * N)) (capacity : N) (pages : list Z)
    (lru : lru_table.t) (page : Z) (fuel : nat) :
  lru_table.traversal iteration →
  lru_table.reachable capacity pages lru →
  (N.to_nat capacity + 2 ≤ fuel)%nat →
  fifo_table.load_page_loops fuel (fifo_table.run capacity pages) page
  = Some (fifo_table.load_page (fifo_table.run capacity pages) page)
  ∧ lru_table.load_page_loops iteration fuel lru page
    = Some (lru_table.load_page iteration lru page).
Proof.
  intros Horder Hlru Hfuel. split.
  - apply fifo_load_page_loops_returns.
    pose proof (fifo_run_bounded capacity pages). lia.
  - apply lru_load_page_loops_returns; [done|].
    pose proof (lru_reachable_bounded capacity pages lru Hlru). lia.
Qed.

Lemma load_page_terminates_witness :
  lru_table.traversal map_to_list
  ∧ lru_table.reachable 3 [1; 2; 3] (lru_table.run map_to_list 3 [1; 2; 3])
  ∧ le (N.to_nat 3 + 2) 5
  ∧ fifo_table.load_page_loops 5 (fifo_table.run 3 [1; 2; 3]) 4
    = Some (fifo_table.load_page (fifo_table.run 3 [1; 2; 3]) 4)
  ∧ lru_table.load_page_loops map_to_list 5 (lru_table.run map_to_list 3 [1; 2; 3]) 4
    = Some (lru_table.load_page map_to_list (lru_table.run map_to_list 3 [1; 2; 3]) 4).
Proof.
  pose proof (lru_run_reachable map_to_list traversal_map_to_list 3 [1; 2; 3]) as Hrun.
  assert (le (N.to_nat 3 + 2) 5) as Hfuel by (vm_compute; lia).
  split; [exact traversal_map_to_list|]. split; [exact Hrun|]. split; [exact Hfuel|].
  exact (load_page_terminates map_to_list 3 [1; 2; 3] _ 4 5
           traversal_map_to_list Hrun Hfuel).
Defined.

(** When the number [k] of calls on page 2 is one that takes the counter
    of page 1 around to 1, the two counters coincide, and the eviction
    that the next new page causes follows the traversal order. *)
Lemma lru_counters_collide (k : N) :
  (0 < k)%N → ((1 + k) mod SIZE_MODULUS)%N = 1%N →
  let pages := 1 :: repeat 2 (N.to_nat k) in
  let s := lru_table.run map_to_list 2 pages in
  lru_table.reachable 2 pages s
  ∧ lru_table._pageMap s !! 1 = Some 1%N
  ∧ lru_table._pageMap s !! 2 = Some 1%N
  ∧ ¬ lru_table.counters_distinct (lru_table._pageMap s)
  ∧ (lru_table.load_page map_to_list s 3).1 = (true, 2)
  ∧ (lru_table.load_page (λ m, reverse (map_to_list m)) s 3).1 = (true, 1).
Proof.
  intros Hk Hwrap pages s. subst s pages.
  split; [apply lru_run_reachable, traversal_map_to_list|].
  rewrite !lru_run_repeated_hit_N by done. rewrite Hwrap.
  simpl lru_table._pageMap.
  assert ((<[2 := 1%N]> (<[1 := 1%N]> ∅) : gmap Z N) !! 1 = Some 1%N) as H1
    by (vm_compute; reflexivity).
  assert ((<[2 := 1%N]> (<[1 := 1%N]> ∅) : gmap Z N) !! 2 = Some 1%N) as H2
    by (vm_compute; reflexivity).
  split; [done|]. split; [done|]. split.
  { intros Hd. by pose proof (Hd 1 2 1%N H1 H2). }
  split; vm_compute; reflexivity.
Qed.

(** C10, the claim as stated fails: load page 1 and then page 2 [2^64]
    times into a fresh [lru_table] of capacity 2. The counter of page 1 has
    gone once around the range of [size_t] and is 1, and so is the counter
    of page 2. When page 3 is loaded next the two share the greatest
    counter, and which of them is erased depends on the traversal order:
    page 2 under one order, page 1 under the reverse order. *)
Lemma lru_counters_collide_after_wrap :
  let pages := 1 :: repeat 2 (N.to_nat SIZE_MODULUS) in
  let s := lru_table.run map_to_list 2 pages in
  lru_table.reachable 2 pages s
  ∧ lru_table._pageMap s !! 1 = Some 1%N
  ∧ lru_table._pageMap s !! 2 = Some 1%N
  ∧ ¬ lru_table.counters_distinct (lru_table._pageMap s)
  ∧ (lru_table.load_page map_to_list s 3).1 = (true, 2)
  ∧ (lru_table.load_page (λ m, reverse (map_to_list m)) s 3).1 = (true, 1).
Proof.
  exact (lru_counters_collide SIZE_MODULUS eq_refl eq_refl).
Qed.

(** C10, amended. After each call of a sequence of fewer than [2^64]
    calls the counters of the resident pages are pairwise distinct; so are
    the counters of the map in which the eviction is decided, hence at most
    one page holds its greatest counter, and the result of the call and the
    table it leaves are the same whatever the traversal orders of this call
    and of the calls before it. *)
Theorem lru_counters_distinct_below_wrap
    (iteration : gmap Z N → list (Z * N)) (capacity : N) (pages : list Z)
    (s : lru_table.t) (page : Z) :
  lru_table.traversal iteration →
  lru_table.reachable capacity pages s →
  N.lt (N.of_nat (length (pages ++ [page]))) SIZE_MODULUS →
  let aged := lru_table.touch (lru_table._pageMap s) page in
  lru_table.counters_distinct (lru_table._pageMap (lru_table.load_page iteration s page).2)
  ∧ lru_table.counters_distinct aged
  ∧ (∀ q1 q2 c1 c2,
       aged !! q1 = Some c1 → lru_table.greatest_counter aged c1 →
       aged !! q2 = Some c2 → lru_table.greatest_counter aged c2 →
       q1 = q2)
  ∧ (∀ iteration' s',
       lru_table.traversal iteration' →
       lru_table.reachable capacity pages s' →
       lru_table.load_page iteration' s' page = lru_table.load_page iteration s page).
Proof.
  intros Horder Hs Hlen aged.
  rewrite length_app in Hlen. simpl in Hlen.
  destruct (lru_reachable_counters capacity pages s Hs) as [Hw Hd]; [lia|].
  assert (lru_table.counters_distinct aged) as Haged.
  { eapply touch_distinct; [done | lia | done]. }
  split; [|split; [|split]].
  - eapply counters_distinct_subseteq; [apply lru_load_page_subseteq | done].
  - done.
  - intros q1 q2 c1 c2 H1 G1 H2 G2.
    by apply (greatest_counter_unique aged q1 q2 c1 c2).
  - intros iteration' s' Horder' Hs'.
    eapply lru_next_call_order_irrelevant; [done | done | done | done | lia].
Qed.

Lemma lru_counters_distinct_below_wrap_witness :
  lru_table.traversal map_to_list
  ∧ lru_table.reachable 3 [1; 2; 3; 1] (lru_table.run map_to_list 3 [1; 2; 3; 1])
  ∧ N.lt (N.of_nat (length ([1; 2; 3; 1] ++ [4]))) SIZE_MODULUS
  ∧ lru_table.counters_distinct
      (lru_table._pageMap
         (lru_table.load_page map_to_list (lru_table.run map_to_list 3 [1; 2; 3; 1]) 4).2)
  ∧ lru_table.load_page (λ m, reverse (map_to_list m))
      (lru_table.run (λ m, reverse (map_to_list m)) 3 [1; 2; 3; 1]) 4
    = lru_table.load_page map_to_list (lru_table.run map_to_list 3 [1; 2; 3; 1]) 4.
Proof.
  pose proof (lru_run_reachable map_to_list traversal_map_to_list 3 [1; 2; 3; 1]) as Hrun.
  assert (N.lt (N.of_nat (length ([1; 2; 3; 1] ++ [4]))) SIZE_MODULUS) as Hlen
    by (vm_compute; reflexivity).
  split; [exact traversal_map_to_list|]. split; [exact Hrun|]. split; [exact Hlen|].
  destruct (lru_counters_distinct_below_wrap map_to_list 3 [1; 2; 3; 1] _ 4
              traversal_map_to_list Hrun Hlen) as (Hdistinct & _ & _ & Horders).
  split; [exact Hdistinct|].
  exact (Horders (λ m, reverse (map_to_list m)) _ traversal_reverse
           (lru_run_reachable _ traversal_reverse 3 [1; 2; 3; 1])).
Defined.

(** * Further properties *)

(** ** The queue of [fifo_table] *)

Lemma fifo_load_page_faulted (s : fifo_table.t) (page : Z) :
  (fifo_table.load_page s page).1.1 = bool_decide (page ∉ fifo_table._pageQueue s).
Proof.
  case_bool_decide as Hin.
  - rewrite fifo_load_page_miss by done. cbv zeta. by case_match.
  - by rewrite fifo_load_page_hit.
Qed.

Lemma fifo_load_page_NoDup (s : fifo_table.t) (page : Z) :
  NoDup (fifo_table._pageQueue s) →
  NoDup (fifo_table._pageQueue (fifo_table.load_page s page).2).
Proof.
  intros Hnd. destruct (decide (page ∈ fifo_table._pageQueue s)) as [Hin|Hin].
  - by rewrite fifo_load_page_hit.
  - rewrite fifo_load_page_miss by done. cbv zeta.
    assert (NoDup (fifo_table._pageQueue s ++ [page])) as Hnd'.
    { apply NoDup_app. split; [done|]. split; [|apply NoDup_singleton].
      intros x Hx ->%list_elem_of_singleton. done. }
    case_match; simpl; [|done]. unfold fifo_table.pop_front.
    destruct (fifo_table._pageQueue s ++ [page]); [done|].
    by apply NoDup_cons in Hnd' as [_ ?].
Qed.

Lemma fifo_run_NoDup (capacity : N) (pages : list Z) :
  NoDup (fifo_table._pageQueue (fifo_table.run capacity pages)).
Proof.
  induction pages as [|page pages IH] using rev_ind; [apply NoDup_nil_2|].
  rewrite fifo_run_snoc. by apply fifo_load_page_NoDup.
Qed.

Lemma fifo_run_elem_of (capacity : N) (pages : list Z) (x : Z) :
  x ∈ fifo_table._pageQueue (fifo_table.run capacity pages) → x ∈ pages.
Proof.
  induction pages as [|page pages IH] using rev_ind.
  - intros Hx. by apply elem_of_nil in Hx.
  - rewrite fifo_run_snoc, elem_of_app, list_elem_of_singleton.
    intros [Hx| ->]%fifo_load_page_queue_elem; [left; by apply IH | by right].
Qed.

(** With room for one page at least, the page of a call is in the queue
    when the call returns. *)
Lemma fifo_load_page_resident (s : fifo_table.t) (page : Z) :
  (1 ≤ fifo_table._capacity s)%N →
  page ∈ fifo_table._pageQueue (fifo_table.load_page s page).2.
Proof.
  intros Hcap. destruct (decide (page ∈ fifo_table._pageQueue s)) as [Hin|Hin].
  - by rewrite fifo_load_page_hit.
  - rewrite fifo_load_page_miss by done. cbv zeta.
    assert (page ∈ fifo_table._pageQueue s ++ [page]) as Hlast.
    { apply elem_of_app. right. apply list_elem_of_here. }
    destruct (N.ltb_spec (fifo_table._capacity s)
                (N.of_nat (length (fifo_table._pageQueue s ++ [page])))) as [Hlt|Hge];
      simpl; [|done].
    unfold fifo_table.pop_front.
    destruct (fifo_table._pageQueue s) as [|x q]; simpl in *; [lia|].
    apply elem_of_app. right. apply list_elem_of_here.
Qed.

(** The length of the queue after a call on a table within its capacity. *)
Lemma fifo_load_page_length (s : fifo_table.t) (page : Z) :
  (N.of_nat (length (fifo_table._pageQueue s)) ≤ fifo_table._capacity s)%N →
  N.of_nat (length (fifo_table._pageQueue (fifo_table.load_page s page).2))
  = N.min (fifo_table._capacity s)
      (N.of_nat (length (fifo_table._pageQueue s))
       + if bool_decide (page ∈ fifo_table._pageQueue s) then 0 else 1)%N.
Proof.
  intros Hle. case_bool_decide as Hin.
  - rewrite fifo_load_page_hit by done. simpl. rewrite N.min_r; lia.
  - rewrite fifo_load_page_miss by done. cbv zeta.
    assert (length (fifo_table.pop_front (fifo_table._pageQueue s ++ [page]))
            = length (fifo_table._pageQueue s)) as Hpop.
    { destruct (fifo_table._pageQueue s); simpl; [done|].
      rewrite length_app. simpl. lia. }
    pose proof (length_app (fifo_table._pageQueue s) [page]) as Happ. simpl in Happ.
    destruct (N.ltb_spec (fifo_table._capacity s)
                (N.of_nat (length (fifo_table._pageQueue s ++ [page])))) as [Hlt|Hge];
      cbn [snd fifo_table._pageQueue].
    + rewrite Hpop. rewrite N.min_l; lia.
    + rewrite N.min_r; lia.
Qed.

(** *** The loop of [run_trial] *)

Lemma fifo_drive_table (capacity : N) (pages : list Z) :
  (fifo_table.drive capacity pages).2 = fifo_table.run capacity pages.
Proof.
  induction pages as [|page pages IH] using rev_ind; [done|].
  unfold fifo_table.drive, fifo_table.run in *. rewrite !foldl_snoc. simpl.
  by rewrite IH.
Qed.

Lemma fifo_trace_snoc (capacity : N) (pages : list Z) (page : Z) :
  fifo_table.trace capacity (pages ++ [page])
  = fifo_table.trace capacity pages
    ++ [(page, (fifo_table.load_page (fifo_table.run capacity pages) page).1)].
Proof.
  unfold fifo_table.trace. rewrite <- fifo_drive_table.
  unfold fifo_table.drive. by rewrite foldl_snoc.
Qed.

Lemma fifo_trace_pages (capacity : N) (pages : list Z) :
  (fifo_table.trace capacity pages).*1 = pages.
Proof.
  induction pages as [|page pages IH] using rev_ind; [done|].
  by rewrite fifo_trace_snoc, fmap_app, IH.
Qed.

Lemma fifo_arrivals_snoc (capacity : N) (pages : list Z) (page : Z) :
  fifo_table.arrivals capacity (pages ++ [page])
  = if bool_decide (page ∈ fifo_table._pageQueue (fifo_table.run capacity pages))
    then fifo_table.arrivals capacity pages
    else fifo_table.arrivals capacity pages ++ [page].
Proof.
  unfold fifo_table.arrivals. rewrite fifo_trace_snoc, filter_app, fmap_app.
  pose proof (fifo_load_page_faulted (fifo_table.run capacity pages) page) as Hf.
  destruct (decide (page ∈ fifo_table._pageQueue (fifo_table.run capacity pages)))
    as [Hin|Hin].
  - rewrite bool_decide_eq_false_2 in Hf by (by intros ?).
    rewrite (bool_decide_eq_true_2 _ Hin).
    rewrite filter_cons_False by (simpl; by rewrite Hf).
    by rewrite filter_nil, app_nil_r.
  - rewrite bool_decide_eq_true_2 in Hf by done.
    rewrite (bool_decide_eq_false_2 _ Hin).
    rewrite filter_cons_True by (simpl; by rewrite Hf). done.
Qed.

Lemma pop_front_drop (n : nat) (q : list Z) :
  fifo_table.pop_front (drop n q) = drop (S n) q.
Proof.
  revert q. induction n as [|n IH]; intros [|x q]; simpl; done.
Qed.

(** The queue is the tail end of the arrivals: as many of the latest as the
    capacity allows, the oldest at the front. *)
Lemma fifo_queue_arrivals (capacity : N) (pages : list Z) :
  fifo_table._pageQueue (fifo_table.run capacity pages)
  = drop (length (fifo_table.arrivals capacity pages) - N.to_nat capacity)
         (fifo_table.arrivals capacity pages).
Proof.
  induction pages as [|page pages IH] using rev_ind; [done|].
  rewrite fifo_arrivals_snoc, fifo_run_snoc.
  set (s := fifo_table.run capacity pages) in *.
  set (F := fifo_table.arrivals capacity pages) in *.
  assert (fifo_table._capacity s = capacity) as Hcap by apply fifo_run_capacity.
  case_bool_decide as Hin.
  - by rewrite fifo_load_page_hit.
  - rewrite fifo_load_page_miss by done. cbv zeta. rewrite Hcap, IH.
    rewrite !length_app, length_drop. simpl.
    destruct (N.ltb_spec capacity
                (N.of_nat (length F - (length F - N.to_nat capacity) + 1))) as [Hlt|Hge];
      simpl.
    + unfold fifo_table.pop_front.
      rewrite <- drop_app_le by lia.
      replace (length F + 1 - N.to_nat capacity)%nat
        with (S (length F - N.to_nat capacity)) by lia.
      apply pop_front_drop.
    + rewrite <- drop_app_le by lia. f_equal. lia.
Qed.

(** X1. After any sequence of calls [get_page_list()] of a [fifo_table]
    names no page twice, and names only pages that were loaded. *)
Theorem fifo_page_list_duplicate_free (capacity : N) (pages : list Z) :
  NoDup (fifo_table.get_page_list (fifo_table.run capacity pages))
  ∧ ∀ x, x ∈ fifo_table.get_page_list (fifo_table.run capacity pages) → x ∈ pages.
Proof.
  split; [apply fifo_run_NoDup | apply fifo_run_elem_of].
Qed.

(** X2. On a [fifo_table] of capacity 1 or more, in any state, the page
    given to [load_page] is resident when the call returns. *)
Theorem fifo_loaded_page_is_resident (s : fifo_table.t) (page : Z) :
  (1 ≤ fifo_table._capacity s)%N →
  page ∈ fifo_table.get_page_list (fifo_table.load_page s page).2.
Proof. apply fifo_load_page_resident. Qed.

Lemma fifo_loaded_page_is_resident_witness :
  N.le 1 (fifo_table._capacity (fifo_table.mk [1; 2; 3] 3 3))
  ∧ 4 ∈ fifo_table.get_page_list
          (fifo_table.load_page (fifo_table.mk [1; 2; 3] 3 3) 4).2.
Proof.
  assert (N.le 1 (fifo_table._capacity (fifo_table.mk [1; 2; 3] 3 3))) as Hcap
    by (simpl; lia).
  split; [exact Hcap|].
  exact (fifo_loaded_page_is_resident (fifo_table.mk [1; 2; 3] 3 3) 4 Hcap).
Defined.

(** X3. The number of resident pages of a [fifo_table] after a call is
    the number before it, plus one if the page was absent, cut off at the
    capacity: the queue never shrinks, and a page is removed only from a
    full queue. *)
Theorem fifo_length_after_call (capacity : N) (pages : list Z) (page : Z) :
  let s := fifo_table.run capacity pages in
  N.of_nat (length (fifo_table.get_page_list (fifo_table.load_page s page).2))
  = N.min capacity
      (N.of_nat (length (fifo_table.get_page_list s))
       + if bool_decide (page ∈ fifo_table.get_page_list s) then 0 else 1)%N.
Proof.
  intros s. subst s. unfold fifo_table.get_page_list.
  pose proof (fifo_load_page_length (fifo_table.run capacity pages) page) as Hlen.
  rewrite fifo_run_capacity in Hlen. apply Hlen, fifo_run_bounded.
Qed.

(** X4. The queue of a [fifo_table] is the tail end of the sequence of
    pages that faulted: the latest [capacity] of them (all of them while
    they are fewer), in the order in which they faulted. *)
Theorem fifo_queue_is_latest_arrivals (capacity : N) (pages : list Z) :
  let arrived := fifo_table.arrivals capacity pages in
  fifo_table.get_page_list (fifo_table.run capacity pages)
  = drop (length arrived - N.to_nat capacity) arrived.
Proof. apply fifo_queue_arrivals. Qed.

(** X5. When a call on a [fifo_table] misses with the queue already at
    its capacity, the page it reports is the one that faulted [capacity]
    faults before the current one: pages leave in the order they came. *)
Theorem fifo_evicts_oldest_arrival (capacity : N) (pages : list Z) (page : Z) :
  let s := fifo_table.run capacity pages in
  let arrived := fifo_table.arrivals capacity pages in
  page ∉ fifo_table.get_page_list s →
  (capacity < N.of_nat (length (fifo_table.get_page_list s)) + 1)%N →
  (arrived ++ [page]) !! (length arrived - N.to_nat capacity)%nat
  = Some (fifo_table.load_page s page).1.2.
Proof.
  intros s arrived Hin Hfull. unfold fifo_table.get_page_list in *.
  rewrite (fifo_load_page_miss s page Hin). cbv zeta.
  subst s. rewrite fifo_run_capacity.
  rewrite length_app. simpl.
  destruct (N.ltb_spec capacity
              (N.of_nat (length (fifo_table._pageQueue (fifo_table.run capacity pages))
                         + 1))) as [_|Hge]; [|lia].
  simpl. rewrite fifo_queue_arrivals in *. fold arrived in Hfull |- *.
  rewrite length_drop in Hfull.
  rewrite <- drop_app_le by lia.
  rewrite <- (Nat.add_0_r (length arrived - N.to_nat capacity)) at 1.
  rewrite <- lookup_drop.
  destruct (drop _ (arrived ++ [page])) as [|x l] eqn:Hd; [|done].
  apply (f_equal length) in Hd. rewrite length_drop, length_app in Hd.
  simpl in Hd. lia.
Qed.

Lemma fifo_evicts_oldest_arrival_witness :
  (4 ∉ fifo_table.get_page_list (fifo_table.run 3 [1; 2; 1; 3]))
  ∧ N.lt 3 (N.of_nat (length (fifo_table.get_page_list
                                 (fifo_table.run 3 [1; 2; 1; 3]))) + 1)
  ∧ (fifo_table.arrivals 3 [1; 2; 1; 3] ++ [4])
      !! Nat.sub (length (fifo_table.arrivals 3 [1; 2; 1; 3])) (N.to_nat 3)
    = Some (fifo_table.load_page (fifo_table.run 3 [1; 2; 1; 3]) 4).1.2.
Proof.
  assert (4 ∉ fifo_table.get_page_list (fifo_table.run 3 [1; 2; 1; 3])) as Hin.
  { apply (bool_decide_unpack _). vm_compute. exact I. }
  assert (N.lt 3 (N.of_nat (length (fifo_table.get_page_list
                                       (fifo_table.run 3 [1; 2; 1; 3]))) + 1)) as Hfull.
  { vm_compute. reflexivity. }
  split; [exact Hin|]. split; [exact Hfull|].
  exact (fifo_evicts_oldest_arrival 3 [1; 2; 1; 3] 4 Hin Hfull).
Defined.

(** X6. A reference to a page that is resident leaves no mark on a
    [fifo_table]: the table after the whole sequence is the table after
    the sequence without that reference. *)
Theorem fifo_hit_is_invisible (capacity : N) (before after : list Z) (page : Z) :
  page ∈ fifo_table.get_page_list (fifo_table.run capacity before) →
  fifo_table.run capacity (before ++ page :: after)
  = fifo_table.run capacity (before ++ after).
Proof.
  intros Hin. unfold fifo_table.run. rewrite !foldl_app. simpl.
  fold (fifo_table.run capacity before).
  by rewrite (fifo_load_page_hit _ _ Hin).
Qed.

Lemma fifo_hit_is_invisible_witness :
  1 ∈ fifo_table.get_page_list (fifo_table.run 3 [1; 2; 3])
  ∧ fifo_table.run 3 ([1; 2; 3] ++ 1 :: [4]) = fifo_table.run 3 ([1; 2; 3] ++ [4]).
Proof.
  assert (1 ∈ fifo_table.get_page_list (fifo_table.run 3 [1; 2; 3])) as Hin.
  { apply (bool_decide_unpack _). vm_compute. exact I. }
  split; [exact Hin|].
  exact (fifo_hit_is_invisible 3 [1; 2; 3] [4] 1 Hin).
Defined.

(** X7. When a call on a [fifo_table] reports a page other than [-1],
    the call faulted, the reported page was resident before the call or is
    the page just loaded, and it is not resident after the call. *)
Theorem fifo_reported_page_has_left (capacity : N) (pages : list Z) (page : Z) :
  let s := fifo_table.run capacity pages in
  let call := fifo_table.load_page s page in
  call.1.2 ≠ -1 →
  call.1.1 = true
  ∧ call.1.2 ∈ fifo_table.get_page_list s ++ [page]
  ∧ call.1.2 ∉ fifo_table.get_page_list call.2.
Proof.
  intros s call. subst call. unfold fifo_table.get_page_list.
  pose proof (fifo_run_NoDup capacity pages) as Hnd. fold s in Hnd.
  destruct (decide (page ∈ fifo_table._pageQueue s)) as [Hin|Hin].
  { by rewrite fifo_load_page_hit. }
  rewrite fifo_load_page_miss by done. cbv zeta.
  assert (NoDup (fifo_table._pageQueue s ++ [page])) as Hnd'.
  { apply NoDup_app. split; [done|]. split; [|apply NoDup_singleton].
    intros x Hx ->%list_elem_of_singleton. done. }
  case_match; simpl; [|done]. intros _. split; [done|].
  unfold fifo_table.front, fifo_table.pop_front.
  destruct (fifo_table._pageQueue s ++ [page]) as [|x l] eqn:Hq; simpl.
  - by apply app_nil in Hq as [_ ?].
  - apply NoDup_cons in Hnd' as [Hx _]. split; [apply list_elem_of_here | done].
Qed.

Lemma fifo_reported_page_has_left_witness :
  (fifo_table.load_page (fifo_table.run 3 [1; 2; 3]) 4).1.2 ≠ -1
  ∧ (fifo_table.load_page (fifo_table.run 3 [1; 2; 3]) 4).1.2
    ∉ fifo_table.get_page_list (fifo_table.load_page (fifo_table.run 3 [1; 2; 3]) 4).2.
Proof.
  assert ((fifo_table.load_page (fifo_table.run 3 [1; 2; 3]) 4).1.2 ≠ -1) as Hr
    by (vm_compute; discriminate).
  split; [exact Hr|].
  exact (proj2 (proj2 (fifo_reported_page_has_left 3 [1; 2; 3] 4 Hr))).
Defined.

(** X8. As long as page [-1] is never loaded, a [fifo_table] call
    reports [-1] exactly when it removed nothing: when the queue after the
    call has every page it had before, and the loaded page besides if that
    was absent. *)
Theorem fifo_minus_one_means_nothing_removed
    (capacity : N) (pages : list Z) (page : Z) :
  let s := fifo_table.run capacity pages in
  let call := fifo_table.load_page s page in
  -1 ∉ pages → page ≠ -1 →
  call.1.2 = -1
  ↔ length (fifo_table.get_page_list call.2)
    = (length (fifo_table.get_page_list s)
       + if bool_decide (page ∈ fifo_table.get_page_list s) then 0 else 1)%nat.
Proof.
  intros s call Hpages Hpage. subst call. unfold fifo_table.get_page_list.
  destruct (decide (page ∈ fifo_table._pageQueue s)) as [Hin|Hin].
  { rewrite (fifo_load_page_hit _ _ Hin), (bool_decide_eq_true_2 _ Hin). simpl.
    split; [lia | done]. }
  rewrite (fifo_load_page_miss _ _ Hin), (bool_decide_eq_false_2 _ Hin). cbv zeta.
  case_match; simpl.
  - unfold fifo_table.front, fifo_table.pop_front.
    destruct (fifo_table._pageQueue s) as [|x q] eqn:Hq; simpl.
    + split; [done | lia].
    + rewrite length_app. simpl. split; [|lia]. intros ->.
      exfalso. apply Hpages, (fifo_run_elem_of capacity). fold s. rewrite Hq.
      apply list_elem_of_here.
  - rewrite length_app. simpl. done.
Qed.

Lemma fifo_minus_one_means_nothing_removed_witness :
  (-1 ∉ [1; 2; 3]) ∧ 4 ≠ -1
  ∧ ((fifo_table.load_page (fifo_table.run 3 [1; 2; 3]) 4).1.2 = -1
     ↔ length (fifo_table.get_page_list
                 (fifo_table.load_page (fifo_table.run 3 [1; 2; 3]) 4).2)
       = Nat.add (length (fifo_table.get_page_list (fifo_table.run 3 [1; 2; 3])))
           (if bool_decide (4 ∈ fifo_table.get_page_list (fifo_table.run 3 [1; 2; 3]))
            then 0%nat else 1%nat)).
Proof.
  assert (-1 ∉ [1; 2; 3]) as Hpages.
  { apply (bool_decide_unpack _). vm_compute. exact I. }
  assert (4 ≠ -1) as Hpage by discriminate.
  split; [exact Hpages|]. split; [exact Hpage|].
  exact (fifo_minus_one_means_nothing_removed 3 [1; 2; 3] 4 Hpages Hpage).
Defined.

(** X9. When page [-1] is at the front of a full [fifo_table] queue and
    an absent page is loaded, page [-1] is removed and the call returns
    [(true, -1)], the very pair a fault that removes nothing returns. *)
Theorem fifo_evicting_minus_one_reads_as_nothing
    (s : fifo_table.t) (rest : list Z) (page : Z) :
  fifo_table.get_page_list s = -1 :: rest →
  fifo_table._capacity s = N.of_nat (length (fifo_table.get_page_list s)) →
  page ∉ fifo_table.get_page_list s →
  (fifo_table.load_page s page).1 = (true, -1)
  ∧ fifo_table.get_page_list (fifo_table.load_page s page).2 = rest ++ [page].
Proof.
  unfold fifo_table.get_page_list. intros Hq Hcap Hin.
  rewrite (fifo_load_page_miss _ _ Hin). cbv zeta. rewrite Hcap, Hq.
  rewrite length_app. simpl.
  destruct (N.ltb_spec (N.of_nat (S (length rest)))
              (N.of_nat (S (length rest + 1)))) as [_|Hge]; [done | lia].
Qed.

Lemma fifo_evicting_minus_one_reads_as_nothing_witness :
  fifo_table.get_page_list (fifo_table.run 2 [-1; 2]) = -1 :: [2]
  ∧ fifo_table._capacity (fifo_table.run 2 [-1; 2])
    = N.of_nat (length (fifo_table.get_page_list (fifo_table.run 2 [-1; 2])))
  ∧ (5 ∉ fifo_table.get_page_list (fifo_table.run 2 [-1; 2]))
  ∧ (fifo_table.load_page (fifo_table.run 2 [-1; 2]) 5).1 = (true, -1)
  ∧ fifo_table.get_page_list (fifo_table.load_page (fifo_table.run 2 [-1; 2]) 5).2
    = [2] ++ [5].
Proof.
  assert (fifo_table.get_page_list (fifo_table.run 2 [-1; 2]) = -1 :: [2]) as Hq
    by reflexivity.
  assert (fifo_table._capacity (fifo_table.run 2 [-1; 2])
          = N.of_nat (length (fifo_table.get_page_list (fifo_table.run 2 [-1; 2]))))
    as Hcap by reflexivity.
  assert (5 ∉ fifo_table.get_page_list (fifo_table.run 2 [-1; 2])) as Hin.
  { apply (bool_decide_unpack _). vm_compute. exact I. }
  split; [exact Hq|]. split; [exact Hcap|]. split; [exact Hin|].
  exact (fifo_evicting_minus_one_reads_as_nothing _ [2] 5 Hq Hcap Hin).
Defined.

(** X10. A larger [fifo_table] can fault more often than a smaller one
    on the same references: the sequence 1 2 3 4 1 2 5 1 2 3 4 5 gives 9
    faults at capacity 3 and 10 at capacity 4. *)
Theorem fifo_more_capacity_can_fault_more :
  ∃ (pages : list Z) (smaller larger : N),
    (smaller < larger)%N
    ∧ fifo_table.get_page_fault_count (fifo_table.run smaller pages)
      < fifo_table.get_page_fault_count (fifo_table.run larger pages).
Proof.
  exists [1; 2; 3; 4; 1; 2; 5; 1; 2; 3; 4; 5], 3%N, 4%N.
  split; vm_compute; reflexivity.
Qed.

(** ** The map of [lru_table] *)

Lemma lru_page_list_NoDup iteration (s : lru_table.t) :
  lru_table.traversal iteration → NoDup (lru_table.get_page_list iteration s).
Proof.
  intros Horder. unfold lru_table.get_page_list.
  rewrite (Horder (lru_table._pageMap s)). apply NoDup_fst_map_to_list.
Qed.

(** The size of the map after a call on a table within its capacity. *)
Lemma lru_load_page_size iteration (s : lru_table.t) (page : Z) :
  lru_table.traversal iteration →
  (N.of_nat (size (lru_table._pageMap s)) ≤ lru_table._capacity s)%N →
  N.of_nat (size (lru_table._pageMap (lru_table.load_page iteration s page).2))
  = N.min (lru_table._capacity s)
      (N.of_nat (size (lru_table._pageMap s))
       + if bool_decide (is_Some (lru_table._pageMap s !! page)) then 0 else 1)%N.
Proof.
  intros Horder Hle.
  pose proof (size_touch (lru_table._pageMap s) page) as Ht.
  assert (N.of_nat (size (lru_table.touch (lru_table._pageMap s) page))
          = (N.of_nat (size (lru_table._pageMap s))
             + if bool_decide (is_Some (lru_table._pageMap s !! page)) then 0 else 1)%N)
    as Hsize.
  { destruct (lru_table._pageMap s !! page) as [c|] eqn:Hp.
    - rewrite bool_decide_eq_true_2 by (by eexists). lia.
    - rewrite bool_decide_eq_false_2 by (by intros [? ?]). lia. }
  rewrite <- Hsize.
  destruct (N.le_gt_cases
              (N.of_nat (size (lru_table.touch (lru_table._pageMap s) page)))
              (lru_table._capacity s)) as [Hk|He].
  - rewrite lru_load_page_keeps by done. simpl. rewrite N.min_r; lia.
  - destruct (lru_load_page_evicts iteration Horder s page He)
      as (evicted & counter & Hin & _ & ->). simpl.
    rewrite (map_size_delete_Some evicted _ (mk_is_Some _ _ Hin)).
    rewrite N.min_l by lia. destruct (lru_table._pageMap s !! page); lia.
Qed.

(** *** Counters and the order of the references *)

Lemma lru_touch_last_referenced (n : N) (m : gmap Z N) (pages : list Z) (page : Z) :
  lru_table.counters_within n m → (n + 1 < SIZE_MODULUS)%N →
  (∀ q c, m !! q = Some c → lru_table.last_referenced pages q c) →
  ∀ q c, lru_table.touch m page !! q = Some c →
         lru_table.last_referenced (pages ++ [page]) q c.
Proof.
  intros Hw Hn Hm q c Hq. destruct (decide (q = page)) as [->|Hne].
  - rewrite lookup_touch_eq in Hq. injection Hq as <-.
    exists pages, []. split; [done|]. split; [apply not_elem_of_nil | done].
  - destruct (lookup_touch_other n m page q c Hw Hn Hne Hq) as (c0 & Hc0 & -> & _).
    destruct (Hm q c0 Hc0) as (l1 & l2 & -> & Hl2 & ->).
    exists l1, (l2 ++ [page]). split; [by rewrite <- app_assoc|]. split.
    + rewrite elem_of_app, list_elem_of_singleton. by intros [?|?].
    + rewrite length_app. simpl. lia.
Qed.

Lemma lru_reachable_last_referenced (capacity : N) (pages : list Z) (s : lru_table.t) :
  lru_table.reachable capacity pages s →
  (N.of_nat (length pages) < SIZE_MODULUS)%N →
  ∀ q c, lru_table._pageMap s !! q = Some c → lru_table.last_referenced pages q c.
Proof.
  induction 1 as [|pages s iteration page Hs IH Horder]; intros Hlen q c Hq.
  - simpl in Hq. by rewrite lookup_empty in Hq.
  - rewrite length_app in Hlen. simpl in Hlen.
    destruct (lru_reachable_counters capacity pages s Hs) as [Hw _]; [lia|].
    eapply lru_touch_last_referenced; [done | lia | apply IH; lia |].
    eapply lookup_weaken; [done | apply lru_load_page_subseteq].
Qed.

(** Of two pages with their latest references, the one referenced nearer
    to the end occurs after the latest reference to the other. *)
Lemma last_referenced_later (pages : list Z) (e q : Z) (ce cq : N) (l1 l2 : list Z) :
  pages = l1 ++ e :: l2 → ce = N.of_nat (S (length l2)) →
  lru_table.last_referenced pages q cq → (cq < ce)%N → q ∈ l2.
Proof.
  intros Hp Hce (k1 & k2 & Hk & _ & Hcq) Hlt.
  assert (pages !! length k1 = Some q) as Hq by (rewrite Hk; apply list_lookup_middle; done).
  assert (length pages = length l1 + S (length l2))%nat as Hlen1
    by (rewrite Hp, length_app; done).
  assert (length pages = length k1 + S (length k2))%nat as Hlen2
    by (rewrite Hk, length_app; done).
  rewrite Hp in Hq.
  rewrite lookup_app_r in Hq by lia.
  destruct (length k1 - length l1)%nat as [|i] eqn:Hi; [lia|].
  simpl in Hq. by eapply list_elem_of_lookup_2.
Qed.

(** *** The same references at two capacities *)

Lemma ages_snoc (pages : list Z) (page : Z) :
  lru_table.ages (pages ++ [page]) = lru_table.touch (lru_table.ages pages) page.
Proof. unfold lru_table.ages. by rewrite foldl_snoc. Qed.

Lemma ages_counters (pages : list Z) :
  (N.of_nat (length pages) < SIZE_MODULUS)%N →
  lru_table.counters_within (N.of_nat (length pages)) (lru_table.ages pages)
  ∧ lru_table.counters_distinct (lru_table.ages pages).
Proof.
  induction pages as [|page pages IH] using rev_ind; intros Hlen.
  - split; intros ?; intros; simplify_map_eq.
  - rewrite length_app in *. simpl in *. rewrite ages_snoc.
    destruct IH as [Hw Hd]; [lia|].
    replace (N.of_nat (length pages + 1)) with (N.of_nat (length pages) + 1)%N by lia.
    split; [apply touch_within | eapply touch_distinct]; done || lia.
Qed.

Lemma touch_mono (m1 m2 : gmap Z N) (page : Z) :
  m1 ⊆ m2 → lru_table.touch m1 page ⊆ lru_table.touch m2 page.
Proof.
  intros Hsub. rewrite !touch_eq. by apply map_fmap_mono, insert_mono.
Qed.

Lemma lru_reachable_subseteq_ages (capacity : N) (pages : list Z) (s : lru_table.t) :
  lru_table.reachable capacity pages s → lru_table._pageMap s ⊆ lru_table.ages pages.
Proof.
  induction 1 as [|pages s iteration page Hs IH Horder]; [done|].
  rewrite ages_snoc. etrans; [apply lru_load_page_subseteq|]. by apply touch_mono.
Qed.

(** Short of [2^64] calls the map holds the youngest entries of [ages]:
    as many as the capacity allows. *)
Lemma lru_reachable_youngest (capacity : N) (pages : list Z) (s : lru_table.t) :
  lru_table.reachable capacity pages s →
  (N.of_nat (length pages) < SIZE_MODULUS)%N →
  lru_table.youngest_of (lru_table.ages pages) (lru_table._pageMap s)
  ∧ N.of_nat (size (lru_table._pageMap s))
    = N.min capacity (N.of_nat (size (lru_table.ages pages))).
Proof.
  induction 1 as [|pages s iteration page Hs IH Horder]; intros Hlen.
  - split; [split; [done|]|].
    + intros q c q' c' Hq. simpl in Hq. by rewrite lookup_empty in Hq.
    + simpl. unfold lru_table.ages. simpl. rewrite map_size_empty. by rewrite N.min_r by lia.
  - rewrite length_app in Hlen. simpl in Hlen.
    destruct IH as [[Hsub Hdown] Hsize]; [lia|].
    destruct (lru_reachable_counters capacity pages s Hs) as [Hw Hd]; [lia|].
    destruct (ages_counters pages) as [HwA HdA]; [lia|].
    pose proof (lru_reachable_capacity capacity pages s Hs) as Hcap.
    pose proof (lru_reachable_bounded capacity pages s Hs) as Hbound.
    set (m := lru_table._pageMap s) in *.
    set (A := lru_table.ages pages) in *.
    assert (lru_table.touch m page ⊆ lru_table.touch A page) as Hsub'
      by (by apply touch_mono).
    (* the touched map holds the youngest entries of the touched [ages] *)
    assert (∀ q c q' c', lru_table.touch m page !! q = Some c →
              lru_table.touch A page !! q' = Some c' → (c' < c)%N →
              lru_table.touch m page !! q' = Some c') as Hdown'.
    { intros q c q' c' Hq Hq' Hlt.
      destruct (decide (q' = page)) as [->|Hne'].
      { rewrite lookup_touch_eq in *. done. }
      destruct (lookup_touch_other _ A page q' c' HwA ltac:(lia) Hne' Hq')
        as (c0' & Hc0' & -> & ?).
      destruct (decide (q = page)) as [->|Hne].
      { rewrite lookup_touch_eq in Hq. injection Hq as <-. lia. }
      destruct (lookup_touch_other _ m page q c Hw ltac:(lia) Hne Hq)
        as (c0 & Hc0 & -> & ?).
      rewrite lookup_touch_ne by done.
      rewrite (Hdown q c0 q' c0' Hc0 Hc0') by lia. simpl.
      f_equal. apply size_incr_below. lia. }
    rewrite ages_snoc. fold A.
    split; [split|].
    + etrans; [apply lru_load_page_subseteq | done].
    + intros q c q' c' Hq Hq' Hlt.
      destruct (N.le_gt_cases (N.of_nat (size (lru_table.touch m page)))
                  (lru_table._capacity s)) as [Hk|He].
      { rewrite lru_load_page_keeps in Hq |- * by done.
        cbn [snd lru_table._pageMap] in Hq |- *.
        exact (Hdown' q c q' c' Hq Hq' Hlt). }
      destruct (lru_load_page_evicts iteration Horder s page He)
        as (evicted & counter & Hin & Hmax & Hcall).
      rewrite Hcall in Hq |- *. cbn [snd lru_table._pageMap] in Hq |- *.
      apply lookup_delete_Some in Hq as [Hne Hq].
      rewrite lookup_delete_ne; [exact (Hdown' q c q' c' Hq Hq' Hlt)|].
      intros <-. pose proof (Hmax q c Hq).
      pose proof (lookup_weaken _ _ _ _ Hin Hsub') as HinA.
      rewrite HinA in Hq'. injection Hq' as <-. lia.
    + rewrite (lru_load_page_size iteration s page Horder) by (by rewrite Hcap).
      rewrite Hcap. fold m.
      pose proof (size_touch A page) as HsA.
      destruct (m !! page) as [c|] eqn:Hm.
      * rewrite bool_decide_eq_true_2 by (by eexists).
        rewrite (lookup_weaken _ _ _ _ Hm Hsub) in HsA. rewrite HsA.
        rewrite N.add_0_r. rewrite N.min_r by lia. done.
      * rewrite bool_decide_eq_false_2 by (by intros [? ?]).
        destruct (A !! page) as [c|] eqn:HA.
        -- assert (size m < size A)%nat as Hstrict.
           { apply map_subset_size. split; [done|]. intros Hrev.
             pose proof (lookup_weaken _ _ _ _ HA Hrev). congruence. }
           rewrite HsA.
           destruct (N.min_spec capacity (N.of_nat (size A))) as [[? Hmin]|[? Hmin]];
             rewrite Hmin in Hsize; [|lia].
           rewrite Hsize. rewrite !N.min_l by lia. done.
        -- rewrite HsA.
           destruct (N.min_spec capacity (N.of_nat (size A))) as [[? Hmin]|[? Hmin]];
             rewrite Hmin in Hsize.
           ++ rewrite Hsize. rewrite !N.min_l by lia. done.
           ++ rewrite Hsize. f_equal. lia.
Qed.

(** Of two maps holding youngest entries of the same [all], the smaller
    is part of the larger. *)
Lemma youngest_of_nested (all m1 m2 : gmap Z N) :
  lru_table.counters_distinct all →
  lru_table.youngest_of all m1 → lru_table.youngest_of all m2 →
  (size m1 ≤ size m2)%nat → m1 ⊆ m2.
Proof.
  intros Hd [Hsub1 Hdown1] [Hsub2 Hdown2] Hsize.
  apply map_subseteq_spec. intros q c Hq.
  destruct (m2 !! q) as [c2|] eqn:Hq2.
  { pose proof (lookup_weaken _ _ _ _ Hq Hsub1).
    pose proof (lookup_weaken _ _ _ _ Hq2 Hsub2). congruence. }
  exfalso.
  assert (m2 ⊂ m1) as Hstrict.
  { split.
    - apply map_subseteq_spec. intros q' c' Hq'.
      pose proof (lookup_weaken _ _ _ _ Hq Hsub1) as HqA.
      pose proof (lookup_weaken _ _ _ _ Hq' Hsub2) as Hq'A.
      destruct (N.lt_trichotomy c' c) as [Hlt|[Heq|Hgt]].
      + by apply (Hdown1 q c q' c').
      + subst c'. rewrite <- (Hd q q' c HqA Hq'A) in Hq'. congruence.
      + rewrite (Hdown2 q' c' q c Hq' HqA Hgt) in Hq2. done.
    - intros Hrev. pose proof (lookup_weaken _ _ _ _ Hq Hrev). congruence. }
  apply map_subset_size in Hstrict. lia.
Qed.

Lemma lru_reachable_nested
    (smaller larger : N) (pages : list Z) (s s' : lru_table.t) :
  (smaller ≤ larger)%N →
  lru_table.reachable smaller pages s → lru_table.reachable larger pages s' →
  (N.of_nat (length pages) < SIZE_MODULUS)%N →
  lru_table._pageMap s ⊆ lru_table._pageMap s'.
Proof.
  intros Hle Hs Hs' Hlen.
  destruct (lru_reachable_youngest smaller pages s Hs Hlen) as [Hy Hsize].
  destruct (lru_reachable_youngest larger pages s' Hs' Hlen) as [Hy' Hsize'].
  destruct (ages_counters pages Hlen) as [_ Hd].
  eapply youngest_of_nested; [done..|].
  assert (N.of_nat (size (lru_table._pageMap s))
          ≤ N.of_nat (size (lru_table._pageMap s')))%N; [|lia].
  rewrite Hsize, Hsize'.
  destruct (N.min_spec smaller (N.of_nat (size (lru_table.ages pages)))) as [[? ->]|[? ->]];
  destruct (N.min_spec larger (N.of_nat (size (lru_table.ages pages)))) as [[? ->]|[? ->]];
    lia.
Qed.

(** X11. [get_page_list()] of an [lru_table], in any state and under any
    traversal order, names every resident page once: it has no duplicates,
    as many entries as the map, and a page is in it exactly when the map
    has an entry for the page. *)
Theorem lru_page_list_names_each_page_once
    (iteration : gmap Z N → list (Z * N)) (s : lru_table.t) :
  lru_table.traversal iteration →
  NoDup (lru_table.get_page_list iteration s)
  ∧ length (lru_table.get_page_list iteration s) = size (lru_table._pageMap s)
  ∧ ∀ page, page ∈ lru_table.get_page_list iteration s
            ↔ is_Some (lru_table._pageMap s !! page).
Proof.
  intros Horder. split; [by apply lru_page_list_NoDup|]. split.
  - by apply length_get_page_list.
  - intros page. by apply elem_of_lru_page_list.
Qed.

Lemma lru_page_list_names_each_page_once_witness :
  lru_table.traversal map_to_list
  ∧ NoDup (lru_table.get_page_list map_to_list
             (lru_table.run map_to_list 3 main.pageTestSet)).
Proof.
  split; [exact traversal_map_to_list|].
  exact (proj1 (lru_page_list_names_each_page_once map_to_list _ traversal_map_to_list)).
Defined.

(** X12. The number of resident pages of an [lru_table] after a call is
    the number before it, plus one if the page was absent, cut off at the
    capacity: the map never shrinks, and an entry is erased only when the
    map is full. *)
Theorem lru_size_after_call
    (iteration : gmap Z N → list (Z * N)) (capacity : N) (pages : list Z)
    (s : lru_table.t) (page : Z) :
  lru_table.traversal iteration →
  lru_table.reachable capacity pages s →
  N.of_nat (length (lru_table.get_page_list iteration
                      (lru_table.load_page iteration s page).2))
  = N.min capacity
      (N.of_nat (length (lru_table.get_page_list iteration s))
       + if bool_decide (page ∈ lru_table.get_page_list iteration s) then 0 else 1)%N.
Proof.
  intros Horder Hs.
  rewrite !(length_get_page_list iteration Horder).
  rewrite (bool_decide_ext _ _ (elem_of_lru_page_list iteration s page Horder)).
  rewrite <- (lru_reachable_capacity capacity pages s Hs).
  apply lru_load_page_size; [done|].
  rewrite (lru_reachable_capacity capacity pages s Hs).
  by eapply lru_reachable_bounded.
Qed.

Lemma lru_size_after_call_witness :
  lru_table.traversal map_to_list
  ∧ lru_table.reachable 3 [1; 2; 3] (lru_table.run map_to_list 3 [1; 2; 3])
  ∧ N.of_nat (length (lru_table.get_page_list map_to_list
                        (lru_table.load_page map_to_list
                           (lru_table.run map_to_list 3 [1; 2; 3]) 4).2))
    = N.min 3
        (N.add (N.of_nat (length (lru_table.get_page_list map_to_list
                                    (lru_table.run map_to_list 3 [1; 2; 3]))))
           (if bool_decide (4 ∈ lru_table.get_page_list map_to_list
                                  (lru_table.run map_to_list 3 [1; 2; 3]))
            then 0%N else 1%N)).
Proof.
  pose proof (lru_run_reachable map_to_list traversal_map_to_list 3 [1; 2; 3]) as Hrun.
  split; [exact traversal_map_to_list|]. split; [exact Hrun|].
  exact (lru_size_after_call map_to_list 3 [1; 2; 3] _ 4 traversal_map_to_list Hrun).
Defined.

(** X13. Short of [2^64] calls, the counter of a resident page of an
    [lru_table] tells how long ago the page was last referenced: a page
    with counter [c] was loaded, and its latest reference is the [c]-th
    call from the end. *)
Theorem lru_counter_is_recency
    (capacity : N) (pages : list Z) (s : lru_table.t) (q : Z) (c : N) :
  lru_table.reachable capacity pages s →
  N.lt (N.of_nat (length pages)) SIZE_MODULUS →
  lru_table._pageMap s !! q = Some c →
  ∃ before after,
    pages = before ++ q :: after ∧ (q ∉ after) ∧ c = N.of_nat (S (length after)).
Proof.
  intros Hs Hlen Hq.
  exact (lru_reachable_last_referenced capacity pages s Hs Hlen q c Hq).
Qed.

Lemma lru_counter_is_recency_witness :
  lru_table.reachable 3 [1; 2; 3; 1] (lru_table.run map_to_list 3 [1; 2; 3; 1])
  ∧ N.lt (N.of_nat (length [1; 2; 3; 1])) SIZE_MODULUS
  ∧ lru_table._pageMap (lru_table.run map_to_list 3 [1; 2; 3; 1]) !! 2 = Some 3%N
  ∧ ∃ before after,
      [1; 2; 3; 1] = before ++ 2 :: after ∧ (2 ∉ after)
      ∧ 3%N = N.of_nat (S (length after)).
Proof.
  pose proof (lru_run_reachable map_to_list traversal_map_to_list 3 [1; 2; 3; 1]) as Hrun.
  assert (N.lt (N.of_nat (length [1; 2; 3; 1])) SIZE_MODULUS) as Hlen
    by (vm_compute; reflexivity).
  assert (lru_table._pageMap (lru_table.run map_to_list 3 [1; 2; 3; 1]) !! 2
          = Some 3%N) as Hq by (vm_compute; reflexivity).
  split; [exact Hrun|]. split; [exact Hlen|]. split; [exact Hq|].
  exact (lru_counter_is_recency 3 [1; 2; 3; 1] _ 2 3%N Hrun Hlen Hq).
Defined.

(** X14. Short of [2^64] calls, the page an [lru_table] erases is the
    least recently used one: every page that is resident after the call
    was referenced after the latest reference to the erased page. *)
Theorem lru_evicts_the_least_recently_used
    (iteration : gmap Z N → list (Z * N)) (capacity : N) (pages : list Z)
    (s : lru_table.t) (page : Z) :
  lru_table.traversal iteration →
  lru_table.reachable capacity pages s →
  N.lt (N.of_nat (length (pages ++ [page]))) SIZE_MODULUS →
  N.lt capacity (N.of_nat (size (lru_table.touch (lru_table._pageMap s) page))) →
  let call := lru_table.load_page iteration s page in
  ∃ before after,
    pages ++ [page] = before ++ call.1.2 :: after
    ∧ (call.1.2 ∉ after)
    ∧ ∀ q, q ∈ lru_table.get_page_list iteration call.2 → q ∈ after.
Proof.
  intros Horder Hs Hlen Hfull call. subst call.
  rewrite length_app in Hlen. simpl in Hlen.
  destruct (lru_reachable_counters capacity pages s Hs) as [Hw Hd]; [lia|].
  pose proof (lru_reachable_last_referenced capacity pages s Hs ltac:(lia)) as Hrec.
  pose proof (lru_touch_last_referenced _ _ pages page Hw ltac:(lia) Hrec) as Hrec'.
  assert (lru_table.counters_distinct (lru_table.touch (lru_table._pageMap s) page))
    as Hd' by (eapply touch_distinct; [done | lia | done]).
  destruct (lru_load_page_evicts iteration Horder s page)
    as (evicted & counter & Hin & Hmax & Hcall).
  { by rewrite (lru_reachable_capacity capacity pages s Hs). }
  rewrite Hcall. simpl.
  destruct (Hrec' evicted counter Hin) as (before & after & Hpages & Hafter & Hcounter).
  exists before, after. split; [done|]. split; [done|].
  intros q [c Hq]%(elem_of_lru_page_list iteration _ _ Horder). simpl in Hq.
  apply lookup_delete_Some in Hq as [Hne Hq].
  eapply (last_referenced_later _ evicted q counter c); [done | done | by apply Hrec' |].
  pose proof (Hmax q c Hq).
  assert (c ≠ counter) by (intros ->; by apply Hne, (Hd' evicted q counter)).
  lia.
Qed.

Lemma lru_evicts_the_least_recently_used_witness :
  lru_table.traversal map_to_list
  ∧ lru_table.reachable 3 [1; 2; 3; 1] (lru_table.run map_to_list 3 [1; 2; 3; 1])
  ∧ N.lt (N.of_nat (length ([1; 2; 3; 1] ++ [4]))) SIZE_MODULUS
  ∧ N.lt 3 (N.of_nat (size (lru_table.touch
                              (lru_table._pageMap
                                 (lru_table.run map_to_list 3 [1; 2; 3; 1])) 4)))
  ∧ ∃ before after,
      [1; 2; 3; 1] ++ [4]
      = before ++ (lru_table.load_page map_to_list
                     (lru_table.run map_to_list 3 [1; 2; 3; 1]) 4).1.2 :: after
      ∧ ((lru_table.load_page map_to_list
            (lru_table.run map_to_list 3 [1; 2; 3; 1]) 4).1.2 ∉ after)
      ∧ ∀ q, q ∈ lru_table.get_page_list map_to_list
                   (lru_table.load_page map_to_list
                      (lru_table.run map_to_list 3 [1; 2; 3; 1]) 4).2 → q ∈ after.
Proof.
  pose proof (lru_run_reachable map_to_list traversal_map_to_list 3 [1; 2; 3; 1]) as Hrun.
  assert (N.lt (N.of_nat (length ([1; 2; 3; 1] ++ [4]))) SIZE_MODULUS) as Hlen
    by (vm_compute; reflexivity).
  assert (N.lt 3 (N.of_nat (size (lru_table.touch
                                    (lru_table._pageMap
                                       (lru_table.run map_to_list 3 [1; 2; 3; 1])) 4))))
    as Hfull by (vm_compute; reflexivity).
  split; [exact traversal_map_to_list|]. split; [exact Hrun|].
  split; [exact Hlen|]. split; [exact Hfull|].
  exact (lru_evicts_the_least_recently_used map_to_list 3 [1; 2; 3; 1] _ 4
           traversal_map_to_list Hrun Hlen Hfull).
Defined.

(** ** Counting faults *)

Lemma fifo_run_count_bounds (capacity : N) (pages : list Z) :
  Z.of_nat (length pages) ≤ INT_MAX →
  0 ≤ fifo_table._page_fault_count (fifo_table.run capacity pages)
    ≤ Z.of_nat (length pages).
Proof.
  induction pages as [|page pages IH] using rev_ind; intros Hlen; [simpl; lia|].
  rewrite length_app in *. simpl in Hlen.
  rewrite fifo_run_snoc, fifo_load_page_count. simpl.
  case_match; [lia|]. rewrite int_incr_below; unfold INT_MIN; lia.
Qed.

Lemma lru_reachable_count_bounds (capacity : N) (pages : list Z) (s : lru_table.t) :
  lru_table.reachable capacity pages s →
  Z.of_nat (length pages) ≤ INT_MAX →
  0 ≤ lru_table._page_fault_count s ≤ Z.of_nat (length pages).
Proof.
  induction 1 as [|pages s iteration page Hs IH Horder]; intros Hlen; [simpl; lia|].
  rewrite length_app in *. simpl in Hlen.
  rewrite lru_load_page_count. unfold lru_table.count_after. simpl.
  case_match; [|lia]. rewrite int_incr_below; unfold INT_MIN; lia.
Qed.

Lemma lru_reachable_elem_of (capacity : N) (pages : list Z) (s : lru_table.t) (q : Z) :
  lru_table.reachable capacity pages s →
  is_Some (lru_table._pageMap s !! q) → q ∈ pages.
Proof.
  induction 1 as [|pages s iteration page Hs IH Horder]; intros [c Hq].
  - simpl in Hq. by rewrite lookup_empty in Hq.
  - eapply lookup_weaken in Hq; [|apply lru_load_page_subseteq].
    rewrite lookup_touch in Hq. rewrite elem_of_app, list_elem_of_singleton.
    destruct (decide (q = page)) as [->|Hne]; [by right|]. left. apply IH.
    destruct (lru_table._pageMap s !! q); [by eexists | done].
Qed.

(** A larger capacity never turns a hit into a miss. *)
Lemma lru_faults_monotone
    (smaller larger : N) (pages : list Z) (s : lru_table.t) :
  (smaller ≤ larger)%N →
  lru_table.reachable smaller pages s →
  ∀ s', lru_table.reachable larger pages s' →
  Z.of_nat (length pages) ≤ INT_MAX →
  lru_table._page_fault_count s' ≤ lru_table._page_fault_count s.
Proof.
  intros Hle Hs.
  induction Hs as [|pages s iteration page Hs IH Horder]; intros s2 Hs2 Hlen.
  - inversion Hs2 as [|pages' s' iteration' page' _ _ Heq]; [done|].
    by destruct pages'.
  - inversion Hs2 as [Heq|pages' s' iteration' page' Hs' Horder' Heq]; subst.
    { by destruct pages. }
    apply app_inj_tail in Heq as [-> ->].
    rewrite length_app in Hlen. simpl in Hlen.
    specialize (IH s' Hs' ltac:(lia)).
    pose proof (lru_reachable_count_bounds smaller pages s Hs ltac:(lia)).
    pose proof (lru_reachable_count_bounds larger pages s' Hs' ltac:(lia)).
    assert (lru_table._pageMap s ⊆ lru_table._pageMap s') as Hsub.
    { eapply lru_reachable_nested; [done..|]. unfold SIZE_MODULUS, INT_MAX in *. lia. }
    rewrite !lru_load_page_count. unfold lru_table.count_after.
    destruct (lru_table._pageMap s !! page) as [c|] eqn:Hp.
    + rewrite (lookup_weaken _ _ _ _ Hp Hsub).
      rewrite !bool_decide_eq_false_2 by done. done.
    + rewrite (bool_decide_eq_true_2 (None = None)) by done.
      rewrite (int_incr_below (lru_table._page_fault_count s))
        by (unfold INT_MIN; lia).
      case_bool_decide; [|lia].
      rewrite int_incr_below by (unfold INT_MIN; lia). lia.
Qed.

(** X15. Short of [2^64] calls, an [lru_table] of a larger capacity
    holds, after the same references, every page that one of a smaller
    capacity holds, with the same counter; and up to [INT_MAX] references
    it has counted no more faults. *)
Theorem lru_larger_capacity_includes_smaller
    (smaller larger : N) (pages : list Z) (s s' : lru_table.t) :
  (smaller ≤ larger)%N →
  lru_table.reachable smaller pages s →
  lru_table.reachable larger pages s' →
  N.lt (N.of_nat (length pages)) SIZE_MODULUS →
  (∀ q c, lru_table._pageMap s !! q = Some c → lru_table._pageMap s' !! q = Some c)
  ∧ (Z.of_nat (length pages) ≤ INT_MAX →
     lru_table.get_page_fault_count s' ≤ lru_table.get_page_fault_count s).
Proof.
  intros Hle Hs Hs' Hlen. split.
  - apply map_subseteq_spec. by eapply lru_reachable_nested.
  - intros Hmax. by eapply lru_faults_monotone.
Qed.

Lemma lru_larger_capacity_includes_smaller_witness :
  (3 ≤ 5)%N
  ∧ lru_table.reachable 3 main.pageTestSet (lru_table.run map_to_list 3 main.pageTestSet)
  ∧ lru_table.reachable 5 main.pageTestSet (lru_table.run map_to_list 5 main.pageTestSet)
  ∧ N.lt (N.of_nat (length main.pageTestSet)) SIZE_MODULUS
  ∧ Z.of_nat (length main.pageTestSet) ≤ INT_MAX
  ∧ lru_table.get_page_fault_count (lru_table.run map_to_list 5 main.pageTestSet)
    ≤ lru_table.get_page_fault_count (lru_table.run map_to_list 3 main.pageTestSet).
Proof.
  pose proof (lru_run_reachable map_to_list traversal_map_to_list 3 main.pageTestSet)
    as Hrun3.
  pose proof (lru_run_reachable map_to_list traversal_map_to_list 5 main.pageTestSet)
    as Hrun5.
  assert (3 ≤ 5)%N as Hle by lia.
  assert (N.lt (N.of_nat (length main.pageTestSet)) SIZE_MODULUS) as Hlen
    by (vm_compute; reflexivity).
  assert (Z.of_nat (length main.pageTestSet) ≤ INT_MAX) as Hmax
    by (vm_compute; discriminate).
  split; [exact Hle|]. split; [exact Hrun3|]. split; [exact Hrun5|].
  split; [exact Hlen|]. split; [exact Hmax|].
  exact (proj2 (lru_larger_capacity_includes_smaller 3 5 main.pageTestSet _ _
                  Hle Hrun3 Hrun5 Hlen) Hmax).
Defined.

(** X16. When a call on an [lru_table] reports a page other than [-1],
    in any state and under any traversal order, the reported page was
    resident before the call or is the page just loaded, and it is not
    resident after the call. *)
Theorem lru_reported_page_has_left
    (iteration : gmap Z N → list (Z * N)) (s : lru_table.t) (page : Z) :
  lru_table.traversal iteration →
  let call := lru_table.load_page iteration s page in
  call.1.2 ≠ -1 →
  (call.1.2 = page ∨ call.1.2 ∈ lru_table.get_page_list iteration s)
  ∧ call.1.2 ∉ lru_table.get_page_list iteration call.2.
Proof.
  intros Horder call. subst call.
  destruct (N.le_gt_cases
              (N.of_nat (size (lru_table.touch (lru_table._pageMap s) page)))
              (lru_table._capacity s)) as [Hk|He].
  { by rewrite lru_load_page_keeps. }
  destruct (lru_load_page_evicts iteration Horder s page He)
    as (evicted & counter & Hin & _ & ->). simpl. intros _.
  rewrite !(elem_of_lru_page_list iteration _ _ Horder). simpl. split.
  - rewrite lookup_touch in Hin. destruct (decide (evicted = page)); [by left|].
    right. destruct (lru_table._pageMap s !! evicted); [by eexists | done].
  - rewrite lookup_delete_eq. by intros [? ?].
Qed.

Lemma lru_reported_page_has_left_witness :
  lru_table.traversal map_to_list
  ∧ (lru_table.load_page map_to_list (lru_table.run map_to_list 3 [1; 2; 3]) 4).1.2 ≠ -1
  ∧ (lru_table.load_page map_to_list (lru_table.run map_to_list 3 [1; 2; 3]) 4).1.2
    ∉ lru_table.get_page_list map_to_list
        (lru_table.load_page map_to_list (lru_table.run map_to_list 3 [1; 2; 3]) 4).2.
Proof.
  assert ((lru_table.load_page map_to_list
             (lru_table.run map_to_list 3 [1; 2; 3]) 4).1.2 ≠ -1) as Hr
    by (vm_compute; discriminate).
  split; [exact traversal_map_to_list|]. split; [exact Hr|].
  exact (proj2 (lru_reported_page_has_left map_to_list _ 4 traversal_map_to_list Hr)).
Defined.

(** *** Faults, calls and different pages *)

Lemma distinct_snoc (pages : list Z) (page : Z) :
  distinct (pages ++ [page])
  = if bool_decide (page ∈ pages) then distinct pages else S (distinct pages).
Proof.
  unfold distinct. rewrite list_to_set_snoc_L. case_bool_decide as Hin.
  - f_equal. apply set_eq. intros x.
    rewrite elem_of_union, elem_of_singleton, elem_of_list_to_set.
    split; [by intros [?| ->] | by left].
  - rewrite size_union, size_singleton; [lia|].
    intros x Hx ->%elem_of_singleton. by apply elem_of_list_to_set in Hx.
Qed.

Lemma distinct_le_length (pages : list Z) : (distinct pages ≤ length pages)%nat.
Proof.
  induction pages as [|page pages IH] using rev_ind; [done|].
  rewrite distinct_snoc, length_app. simpl. destruct (bool_decide _); lia.
Qed.

Lemma faulting_snoc (rows : list (Z * (bool * Z))) (row : Z * (bool * Z)) :
  faulting (rows ++ [row]) = (faulting rows + if row.2.1 then 1 else 0)%nat.
Proof.
  unfold faulting. rewrite filter_app, length_app. f_equal.
  destruct row as [page [[] reported]].
  - by rewrite filter_cons_True.
  - by rewrite filter_cons_False.
Qed.

Lemma lru_drive_table iteration (capacity : N) (pages : list Z) :
  (lru_table.drive iteration capacity pages).2 = lru_table.run iteration capacity pages.
Proof.
  induction pages as [|page pages IH] using rev_ind; [done|].
  unfold lru_table.drive, lru_table.run in *. rewrite !foldl_snoc. simpl.
  by rewrite IH.
Qed.

Lemma lru_trace_snoc iteration (capacity : N) (pages : list Z) (page : Z) :
  lru_table.trace iteration capacity (pages ++ [page])
  = lru_table.trace iteration capacity pages
    ++ [(page, (lru_table.load_page iteration
                  (lru_table.run iteration capacity pages) page).1)].
Proof.
  unfold lru_table.trace. rewrite <- lru_drive_table.
  unfold lru_table.drive. by rewrite foldl_snoc.
Qed.

Lemma lru_load_page_faulted iteration (s : lru_table.t) (page : Z) :
  (lru_table.load_page iteration s page).1.1
  = bool_decide (lru_table._pageMap s !! page = None).
Proof.
  unfold lru_table.load_page.
  destruct (_ <? _)%N; [|done]. by destruct (lru_table.max_element _).
Qed.

Lemma fifo_count_faulting (capacity : N) (pages : list Z) :
  Z.of_nat (length pages) ≤ INT_MAX →
  fifo_table._page_fault_count (fifo_table.run capacity pages)
  = Z.of_nat (faulting (fifo_table.trace capacity pages))
  ∧ (faulting (fifo_table.trace capacity pages) ≤ length pages)%nat.
Proof.
  induction pages as [|page pages IH] using rev_ind; intros Hlen; [done|].
  rewrite length_app in *. simpl in Hlen.
  destruct IH as [Hc Hle]; [lia|].
  rewrite fifo_trace_snoc, faulting_snoc, fifo_run_snoc, fifo_load_page_count.
  simpl. rewrite fifo_load_page_faulted.
  destruct (decide (page ∈ fifo_table._pageQueue (fifo_table.run capacity pages)))
    as [Hin|Hin].
  - rewrite (bool_decide_eq_true_2 _ Hin).
    rewrite bool_decide_eq_false_2 by (by intros ?). lia.
  - rewrite (bool_decide_eq_false_2 _ Hin), (bool_decide_eq_true_2 _ Hin).
    rewrite int_incr_below by (unfold INT_MIN; lia). lia.
Qed.

Lemma lru_count_faulting iteration (capacity : N) (pages : list Z) :
  Z.of_nat (length pages) ≤ INT_MAX →
  lru_table._page_fault_count (lru_table.run iteration capacity pages)
  = Z.of_nat (faulting (lru_table.trace iteration capacity pages))
  ∧ (faulting (lru_table.trace iteration capacity pages) ≤ length pages)%nat.
Proof.
  induction pages as [|page pages IH] using rev_ind; intros Hlen; [done|].
  rewrite length_app in *. simpl in Hlen.
  destruct IH as [Hc Hle]; [lia|].
  rewrite lru_trace_snoc, faulting_snoc.
  unfold lru_table.run. rewrite foldl_snoc.
  fold (lru_table.run iteration capacity pages).
  rewrite lru_load_page_count. unfold lru_table.count_after.
  simpl. rewrite lru_load_page_faulted.
  case_bool_decide; [|lia].
  rewrite int_incr_below by (unfold INT_MIN; lia). lia.
Qed.

(** X17. Up to [INT_MAX] references, [get_page_fault_count()] after the
    loop of [run_trial] is the number of calls that returned [true] as
    their first component, and so at most the number of references; this
    holds for [fifo_table] and for [lru_table] under any traversal order. *)
Theorem fault_count_is_number_of_faulting_calls
    (iteration : gmap Z N → list (Z * N)) (capacity : N) (pages : list Z) :
  Z.of_nat (length pages) ≤ INT_MAX →
  let fifo := fifo_table.drive capacity pages in
  let lru := lru_table.drive iteration capacity pages in
  fifo_table.get_page_fault_count fifo.2 = Z.of_nat (faulting fifo.1)
  ∧ lru_table.get_page_fault_count lru.2 = Z.of_nat (faulting lru.1)
  ∧ (faulting fifo.1 ≤ length pages)%nat
  ∧ (faulting lru.1 ≤ length pages)%nat.
Proof.
  intros Hlen fifo lru. subst fifo lru.
  unfold fifo_table.get_page_fault_count, lru_table.get_page_fault_count.
  rewrite fifo_drive_table, lru_drive_table.
  destruct (fifo_count_faulting capacity pages Hlen) as [Hf Hfl].
  destruct (lru_count_faulting iteration capacity pages Hlen) as [Hl Hll].
  done.
Qed.

Lemma fault_count_is_number_of_faulting_calls_witness :
  Z.of_nat (length main.pageTestSet) ≤ INT_MAX
  ∧ fifo_table.get_page_fault_count (fifo_table.drive 3 main.pageTestSet).2
    = Z.of_nat (faulting (fifo_table.drive 3 main.pageTestSet).1)
  ∧ lru_table.get_page_fault_count (lru_table.drive map_to_list 3 main.pageTestSet).2
    = Z.of_nat (faulting (lru_table.drive map_to_list 3 main.pageTestSet).1).
Proof.
  assert (Z.of_nat (length main.pageTestSet) ≤ INT_MAX) as Hlen
    by (vm_compute; discriminate).
  split; [exact Hlen|].
  pose proof (fault_count_is_number_of_faulting_calls map_to_list 3 main.pageTestSet Hlen)
    as (Hf & Hl & _).
  split; [exact Hf | exact Hl].
Defined.

Lemma fifo_count_ge_distinct (capacity : N) (pages : list Z) :
  Z.of_nat (length pages) ≤ INT_MAX →
  Z.of_nat (distinct pages) ≤ fifo_table._page_fault_count (fifo_table.run capacity pages).
Proof.
  induction pages as [|page pages IH] using rev_ind; intros Hlen; [done|].
  rewrite length_app in *. simpl in Hlen. specialize (IH ltac:(lia)).
  pose proof (fifo_run_count_bounds capacity pages ltac:(lia)).
  rewrite distinct_snoc, fifo_run_snoc, fifo_load_page_count.
  destruct (decide (page ∈ pages)) as [Hp|Hp].
  - rewrite (bool_decide_eq_true_2 _ Hp). case_bool_decide; [lia|].
    rewrite int_incr_below by (unfold INT_MIN; lia). lia.
  - rewrite (bool_decide_eq_false_2 _ Hp).
    rewrite bool_decide_eq_false_2 by (intros Hq; by apply Hp, (fifo_run_elem_of capacity)).
    rewrite int_incr_below by (unfold INT_MIN; lia). lia.
Qed.

Lemma lru_count_ge_distinct (capacity : N) (pages : list Z) (s : lru_table.t) :
  lru_table.reachable capacity pages s →
  Z.of_nat (length pages) ≤ INT_MAX →
  Z.of_nat (distinct pages) ≤ lru_table._page_fault_count s.
Proof.
  induction 1 as [|pages s iteration page Hs IH Horder]; intros Hlen; [done|].
  rewrite length_app in *. simpl in Hlen. specialize (IH ltac:(lia)).
  pose proof (lru_reachable_count_bounds capacity pages s Hs ltac:(lia)).
  rewrite distinct_snoc, lru_load_page_count. unfold lru_table.count_after.
  destruct (decide (page ∈ pages)) as [Hp|Hp].
  - rewrite (bool_decide_eq_true_2 _ Hp). case_bool_decide; [|lia].
    rewrite int_incr_below by (unfold INT_MIN; lia). lia.
  - rewrite (bool_decide_eq_false_2 _ Hp).
    rewrite bool_decide_eq_true_2.
    + rewrite int_incr_below by (unfold INT_MIN; lia). lia.
    + apply eq_None_not_Some. intros Hq.
      by apply Hp, (lru_reachable_elem_of capacity pages s).
Qed.

(** X18. Up to [INT_MAX] references, either table has counted at least
    as many faults as there are different pages in the references, and at
    most as many as there are references. *)
Theorem fault_count_between_distinct_and_references
    (capacity : N) (pages : list Z) (lru : lru_table.t) :
  lru_table.reachable capacity pages lru →
  Z.of_nat (length pages) ≤ INT_MAX →
  Z.of_nat (distinct pages)
    ≤ fifo_table.get_page_fault_count (fifo_table.run capacity pages)
    ≤ Z.of_nat (length pages)
  ∧ Z.of_nat (distinct pages)
    ≤ lru_table.get_page_fault_count lru
    ≤ Z.of_nat (length pages).
Proof.
  intros Hlru Hlen.
  pose proof (fifo_count_ge_distinct capacity pages Hlen).
  pose proof (fifo_run_count_bounds capacity pages Hlen).
  pose proof (lru_count_ge_distinct capacity pages lru Hlru Hlen).
  pose proof (lru_reachable_count_bounds capacity pages lru Hlru Hlen).
  unfold fifo_table.get_page_fault_count, lru_table.get_page_fault_count. lia.
Qed.

Lemma fault_count_between_distinct_and_references_witness :
  lru_table.reachable 3 main.pageTestSet (lru_table.run map_to_list 3 main.pageTestSet)
  ∧ Z.of_nat (length main.pageTestSet) ≤ INT_MAX
  ∧ Z.of_nat (distinct main.pageTestSet)
    ≤ fifo_table.get_page_fault_count (fifo_table.run 3 main.pageTestSet)
  ∧ Z.of_nat (distinct main.pageTestSet)
    ≤ lru_table.get_page_fault_count (lru_table.run map_to_list 3 main.pageTestSet).
Proof.
  pose proof (lru_run_reachable map_to_list traversal_map_to_list 3 main.pageTestSet)
    as Hrun.
  assert (Z.of_nat (length main.pageTestSet) ≤ INT_MAX) as Hlen
    by (vm_compute; discriminate).
  split; [exact Hrun|]. split; [exact Hlen|].
  pose proof (fault_count_between_distinct_and_references 3 main.pageTestSet _ Hrun Hlen)
    as [[Hf _] [Hl _]].
  split; [exact Hf | exact Hl].
Defined.

(** *** A capacity that holds every page *)

Lemma fifo_run_all_resident (capacity : N) (pages : list Z) :
  (N.of_nat (distinct pages) ≤ capacity)%N →
  Z.of_nat (length pages) ≤ INT_MAX →
  (∀ x, x ∈ fifo_table._pageQueue (fifo_table.run capacity pages) ↔ x ∈ pages)
  ∧ length (fifo_table._pageQueue (fifo_table.run capacity pages)) = distinct pages
  ∧ fifo_table._page_fault_count (fifo_table.run capacity pages)
    = Z.of_nat (distinct pages).
Proof.
  induction pages as [|page pages IH] using rev_ind; intros Hcap Hlen.
  - split; [|done]. intros x. simpl. by rewrite !elem_of_nil.
  - rewrite length_app in Hlen. simpl in Hlen. rewrite distinct_snoc in *.
    pose proof (distinct_le_length pages) as Hdl.
    destruct IH as (Hmem & Hsize & Hcount); [case_bool_decide; lia | lia |].
    rewrite fifo_run_snoc.
    destruct (decide (page ∈ pages)) as [Hp|Hp].
    + rewrite (bool_decide_eq_true_2 _ Hp) in *.
      rewrite fifo_load_page_hit by (by apply Hmem). simpl.
      split; [|done]. intros x. rewrite Hmem, elem_of_app, list_elem_of_singleton.
      split; [by left | by intros [?| ->]].
    + rewrite (bool_decide_eq_false_2 _ Hp) in *.
      rewrite fifo_load_page_miss by (by rewrite Hmem). cbv zeta.
      rewrite fifo_run_capacity, length_app, Hsize. simpl.
      destruct (N.ltb_spec capacity (N.of_nat (distinct pages + 1))) as [Hlt|_]; [lia|].
      simpl. split; [|split].
      * intros x. rewrite !elem_of_app, Hmem. done.
      * rewrite length_app, Hsize. simpl. lia.
      * rewrite Hcount. rewrite int_incr_below by (unfold INT_MIN; lia). lia.
Qed.

Lemma lru_reachable_all_resident (capacity : N) (pages : list Z) (s : lru_table.t) :
  lru_table.reachable capacity pages s →
  (N.of_nat (distinct pages) ≤ capacity)%N →
  Z.of_nat (length pages) ≤ INT_MAX →
  (∀ x, is_Some (lru_table._pageMap s !! x) ↔ x ∈ pages)
  ∧ size (lru_table._pageMap s) = distinct pages
  ∧ lru_table._page_fault_count s = Z.of_nat (distinct pages).
Proof.
  induction 1 as [|pages s iteration page Hs IH Horder]; intros Hcap Hlen.
  - split; [|done]. intros x. simpl. rewrite lookup_empty, elem_of_nil.
    split; [by intros [? ?] | done].
  - rewrite length_app in Hlen. simpl in Hlen. rewrite distinct_snoc in *.
    pose proof (distinct_le_length pages) as Hdl.
    destruct IH as (Hmem & Hsize & Hcount); [case_bool_decide; lia | lia |].
    pose proof (lru_reachable_capacity capacity pages s Hs) as Hc.
    pose proof (size_touch (lru_table._pageMap s) page) as Ht.
    assert (lru_table._pageMap s !! page = None ↔ page ∉ pages) as Hnone.
    { rewrite <- Hmem, eq_None_not_Some. done. }
    assert (N.of_nat (size (lru_table.touch (lru_table._pageMap s) page)) ≤ capacity)%N
      as Hroom.
    { destruct (lru_table._pageMap s !! page) eqn:Hp.
      - rewrite Ht, Hsize. case_bool_decide; lia.
      - rewrite bool_decide_eq_false_2 in Hcap by (by apply Hnone). lia. }
    rewrite lru_load_page_keeps by (by rewrite Hc). simpl.
    split; [|split].
    + intros x. rewrite lookup_touch, elem_of_app, list_elem_of_singleton.
      destruct (decide (x = page)) as [->|Hne].
      * split; [by right | by eexists].
      * rewrite fmap_is_Some, Hmem. split; [by left | by intros [?|?]].
    + rewrite Ht. destruct (lru_table._pageMap s !! page) eqn:Hp.
      * rewrite bool_decide_eq_true_2; [done|]. apply Hmem. by eexists.
      * rewrite bool_decide_eq_false_2 by (by apply Hnone). lia.
    + unfold lru_table.count_after.
      destruct (lru_table._pageMap s !! page) eqn:Hp.
      * rewrite bool_decide_eq_false_2 by done.
        rewrite bool_decide_eq_true_2; [done|]. apply Hmem. by eexists.
      * rewrite (bool_decide_eq_true_2 (None = None)) by done.
        rewrite bool_decide_eq_false_2 by (by apply Hnone).
        rewrite Hcount. rewrite int_incr_below by (unfold INT_MIN; lia). lia.
Qed.

(** X19. When the capacity is at least the number of different pages
    referenced (and there are at most [INT_MAX] references), both tables
    end up holding every referenced page, and both count exactly one fault
    per different page: the two policies then agree. *)
Theorem enough_capacity_one_fault_per_page
    (iteration : gmap Z N → list (Z * N)) (capacity : N) (pages : list Z)
    (lru : lru_table.t) :
  lru_table.traversal iteration →
  lru_table.reachable capacity pages lru →
  N.le (N.of_nat (distinct pages)) capacity →
  Z.of_nat (length pages) ≤ INT_MAX →
  let fifo := fifo_table.run capacity pages in
  fifo_table.get_page_fault_count fifo = Z.of_nat (distinct pages)
  ∧ lru_table.get_page_fault_count lru = Z.of_nat (distinct pages)
  ∧ (∀ x, x ∈ fifo_table.get_page_list fifo ↔ x ∈ pages)
  ∧ (∀ x, x ∈ lru_table.get_page_list iteration lru ↔ x ∈ pages).
Proof.
  intros Horder Hlru Hcap Hlen fifo.
  destruct (fifo_run_all_resident capacity pages Hcap Hlen) as (Hfm & _ & Hfc).
  destruct (lru_reachable_all_resident capacity pages lru Hlru Hcap Hlen)
    as (Hlm & _ & Hlc).
  split; [done|]. split; [done|]. split; [done|].
  intros x. rewrite (elem_of_lru_page_list iteration lru x Horder). apply Hlm.
Qed.

Lemma enough_capacity_one_fault_per_page_witness :
  lru_table.traversal map_to_list
  ∧ lru_table.reachable 3 [1; 2; 1; 3; 2] (lru_table.run map_to_list 3 [1; 2; 1; 3; 2])
  ∧ N.le (N.of_nat (distinct [1; 2; 1; 3; 2])) 3
  ∧ Z.of_nat (length [1; 2; 1; 3; 2]) ≤ INT_MAX
  ∧ fifo_table.get_page_fault_count (fifo_table.run 3 [1; 2; 1; 3; 2])
    = Z.of_nat (distinct [1; 2; 1; 3; 2])
  ∧ lru_table.get_page_fault_count (lru_table.run map_to_list 3 [1; 2; 1; 3; 2])
    = Z.of_nat (distinct [1; 2; 1; 3; 2]).
Proof.
  pose proof (lru_run_reachable map_to_list traversal_map_to_list 3 [1; 2; 1; 3; 2])
    as Hrun.
  assert (N.le (N.of_nat (distinct [1; 2; 1; 3; 2])) 3) as Hcap
    by (vm_compute; discriminate).
  assert (Z.of_nat (length [1; 2; 1; 3; 2]) ≤ INT_MAX) as Hlen
    by (vm_compute; discriminate).
  split; [exact traversal_map_to_list|]. split; [exact Hrun|].
  split; [exact Hcap|]. split; [exact Hlen|].
  pose proof (enough_capacity_one_fault_per_page map_to_list 3 [1; 2; 1; 3; 2] _
                traversal_map_to_list Hrun Hcap Hlen) as (Hf & Hl & _).
  split; [exact Hf | exact Hl].
Defined.

(** X20. As long as page [-1] is never loaded, an [lru_table] call
    reports [-1] exactly when it erased nothing: when the number of
    resident pages after the call is the number before it, plus one if the
    loaded page was absent. *)
Theorem lru_minus_one_means_nothing_removed
    (iteration : gmap Z N → list (Z * N)) (capacity : N) (pages : list Z)
    (s : lru_table.t) (page : Z) :
  lru_table.traversal iteration →
  lru_table.reachable capacity pages s →
  -1 ∉ pages → page ≠ -1 →
  let call := lru_table.load_page iteration s page in
  call.1.2 = -1
  ↔ length (lru_table.get_page_list iteration call.2)
    = (length (lru_table.get_page_list iteration s)
       + if bool_decide (page ∈ lru_table.get_page_list iteration s) then 0 else 1)%nat.
Proof.
  intros Horder Hs Hpages Hpage call. subst call.
  rewrite !(length_get_page_list iteration Horder).
  rewrite (bool_decide_ext _ _ (elem_of_lru_page_list iteration s page Horder)).
  assert (size (lru_table.touch (lru_table._pageMap s) page)
          = (size (lru_table._pageMap s)
             + if bool_decide (is_Some (lru_table._pageMap s !! page)) then 0 else 1)%nat)
    as Hsize.
  { rewrite size_touch. destruct (lru_table._pageMap s !! page) as [c|] eqn:Hp.
    - rewrite bool_decide_eq_true_2 by (by eexists). lia.
    - rewrite bool_decide_eq_false_2 by (by intros [? ?]). lia. }
  rewrite <- Hsize.
  destruct (N.le_gt_cases
              (N.of_nat (size (lru_table.touch (lru_table._pageMap s) page)))
              (lru_table._capacity s)) as [Hk|He].
  { by rewrite lru_load_page_keeps. }
  destruct (lru_load_page_evicts iteration Horder s page He)
    as (evicted & counter & Hin & _ & ->). simpl.
  rewrite (map_size_delete_Some evicted _ (mk_is_Some _ _ Hin)).
  assert (size (lru_table.touch (lru_table._pageMap s) page) ≠ 0%nat) as Hpos.
  { apply map_size_non_empty_iff, touch_non_empty. }
  split; [|lia]. intros ->. exfalso.
  rewrite lookup_touch in Hin. destruct (decide (-1 = page)) as [|Hne]; [done|].
  apply Hpages, (lru_reachable_elem_of capacity pages s); [done|].
  destruct (lru_table._pageMap s !! (-1)); [by eexists | done].
Qed.

Lemma lru_minus_one_means_nothing_removed_witness :
  lru_table.traversal map_to_list
  ∧ lru_table.reachable 3 [1; 2; 3] (lru_table.run map_to_list 3 [1; 2; 3])
  ∧ (-1 ∉ [1; 2; 3]) ∧ 4 ≠ -1
  ∧ ((lru_table.load_page map_to_list (lru_table.run map_to_list 3 [1; 2; 3]) 4).1.2 = -1
     ↔ length (lru_table.get_page_list map_to_list
                 (lru_table.load_page map_to_list
                    (lru_table.run map_to_list 3 [1; 2; 3]) 4).2)
       = Nat.add (length (lru_table.get_page_list map_to_list
                            (lru_table.run map_to_list 3 [1; 2; 3])))
           (if bool_decide (4 ∈ lru_table.get_page_list map_to_list
                                  (lru_table.run map_to_list 3 [1; 2; 3]))
            then 0%nat else 1%nat)).
Proof.
  pose proof (lru_run_reachable map_to_list traversal_map_to_list 3 [1; 2; 3]) as Hrun.
  assert (-1 ∉ [1; 2; 3]) as Hpages.
  { apply (bool_decide_unpack _). vm_compute. exact I. }
  assert (4 ≠ -1) as Hpage by discriminate.
  split; [exact traversal_map_to_list|]. split; [exact Hrun|].
  split; [exact Hpages|]. split; [exact Hpage|].
  exact (lru_minus_one_means_nothing_removed map_to_list 3 [1; 2; 3] _ 4
           traversal_map_to_list Hrun Hpages Hpage).
Defined.

(** ** [capacity()] *)

(** X21. After any sequence of calls, [capacity()] of either table gives
    back the capacity the table was constructed with exactly when that
    capacity is at most [INT_MAX]: the accessor returns the [size_t] member
    as an [int]. *)
Theorem capacity_reads_back
    (capacity : N) (pages : list Z) (lru : lru_table.t) :
  lru_table.reachable capacity pages lru →
  (fifo_table.capacity (fifo_table.run capacity pages) = Z.of_N capacity
   ↔ Z.of_N capacity ≤ INT_MAX)
  ∧ (lru_table.capacity lru = Z.of_N capacity ↔ Z.of_N capacity ≤ INT_MAX).
Proof.
  intros Hlru. unfold fifo_table.capacity, lru_table.capacity.
  rewrite fifo_run_capacity, (lru_reachable_capacity capacity pages lru Hlru).
  assert (wrap_int (Z.of_N capacity) = Z.of_N capacity ↔ Z.of_N capacity ≤ INT_MAX)
    as Hwrap.
  { split.
    - intros <-. apply wrap_int_range.
    - intros Hle. unfold wrap_int, INT_MAX in *. rewrite Z.mod_small by lia. lia. }
  done.
Qed.

Lemma capacity_reads_back_witness :
  lru_table.reachable 3 main.pageTestSet (lru_table.run map_to_list 3 main.pageTestSet)
  ∧ fifo_table.capacity (fifo_table.run 3 main.pageTestSet) = 3
  ∧ lru_table.capacity (lru_table.run map_to_list 3 main.pageTestSet) = 3.
Proof.
  pose proof (lru_run_reachable map_to_list traversal_map_to_list 3 main.pageTestSet)
    as Hrun.
  split; [exact Hrun|].
  destruct (capacity_reads_back 3 main.pageTestSet _ Hrun) as [Hf Hl].
  split.
  - apply Hf. vm_compute. discriminate.
  - apply Hl. vm_compute. discriminate.
Defined.
